(** * Rolling window of go-zero (core/collection/rollingwindow.go)

    A shallow embedding of the time-sliced ring of buckets behind the
    circuit breaker, and the properties of its sliding algorithm.

    Conventions of the embedding.
    - Go's [int], [int64] and [time.Duration] are 64-bit two's-complement
      integers: they are values of [Z] and every arithmetic operation wraps
      explicitly through [wrap64].  Division and remainder truncate toward
      zero ([Z.quot], [Z.rem]) and panic on a zero divisor.
    - [float64] is the primitive binary64 type [float].
    - A run-time panic is the [Panic] outcome of the [result] monad; so is
      a fatal error of the runtime, which ends the process.
    - The memory the runtime can still provide is, like the clock, a fact of
      the environment: the constructor receives it as [heap], the number of
      buckets (slice slot and [Bucket]) that can be allocated when it runs.
    - The clock ([timex.Now], [timex.Since]) is an external collaborator:
      every operation receives the readings it takes as arguments.
      [updateOffset] reads the clock twice (once inside [span], once for the
      re-alignment), so it receives two readings.
    - The read/write lock is not modelled: operations are atomic steps.
    - [buckets] is a slice of pointers to distinct heap buckets; it is a list
      of bucket values indexed by slot.  A visitor receives a pointer and may
      write through it, so a visitor returns the bucket it leaves behind. *)

From Stdlib Require Import ZArith Lia Floats.PrimFloat.
From stdpp Require Import base list strings.

Local Open Scope Z_scope.

(** ** Outcomes of Go code that may panic *)

Inductive result (A : Type) : Type :=
| Ok (a : A)
| Panic (msg : string).
Arguments Ok {A} a.
Arguments Panic {A} msg.

#[global] Instance result_bind : MBind result :=
  fun A B (k : A -> result B) (r : result A) =>
    match r with
    | Ok a => k a
    | Panic m => Panic m
    end.

(** ** 64-bit integer arithmetic *)

Module I64.

Definition min_int : Z := - 2 ^ 63.
Definition max_int : Z := 2 ^ 63 - 1.

Definition in_range (z : Z) : Prop := min_int <= z <= max_int.

Definition wrap64 (z : Z) : Z := (z + 2 ^ 63) mod 2 ^ 64 - 2 ^ 63.

Definition add (a b : Z) : Z := wrap64 (a + b).
Definition sub (a b : Z) : Z := wrap64 (a - b).

(** [a / b]: truncated quotient; [min_int / -1] wraps to [min_int]. *)
Definition div (a b : Z) : result Z :=
  if b =? 0 then Panic "integer divide by zero"
  else Ok (wrap64 (Z.quot a b)).

(** [a % b]: remainder with the sign of the dividend. *)
Definition rem (a b : Z) : result Z :=
  if b =? 0 then Panic "integer divide by zero"
  else Ok (Z.rem a b).

End I64.

(** ** Slices *)

(** [l[i]] with Go's bounds check. *)
Definition index {A} (l : list A) (i : Z) : result A :=
  if i <? 0 then Panic "index out of range"
  else match l !! Z.to_nat i with
       | Some x => Ok x
       | None => Panic "index out of range"
       end.

(** [for i := 0; i < count; i++ { body }]: the counter never overflows, as
    it stays below [count]. *)
Fixpoint for_from {St} (i : Z) (n : nat) (body : Z -> St -> result St) (s : St)
  : result St :=
  match n with
  | O => Ok s
  | S n' => s' ← body i s; for_from (i + 1) n' body s'
  end.

Definition for_range {St} (count : Z) (body : Z -> St -> result St) (s : St)
  : result St :=
  for_from 0 (Z.to_nat count) body s.

(** Largest allocation of the Go runtime on 64-bit linux/amd64 and the size
    of a pointer: [make([]*Bucket, n)] panics when [n] pointers do not fit. *)
Definition maxAlloc : Z := 2 ^ 48.
Definition ptrSize : Z := 8.

(** ** Bucket *)

Record Bucket := mkBucket { Sum : float; Count : Z }.

Definition Bucket_add (v : float) (b : Bucket) : Bucket :=
  {| Sum := (Sum b + v)%float; Count := I64.add (Count b) 1 |}.

Definition Bucket_reset (b : Bucket) : Bucket :=
  {| Sum := 0%float; Count := 0 |}.

(** [new(Bucket)]: the zero value. *)
Definition new_Bucket : Bucket := {| Sum := 0%float; Count := 0 |}.

(** ** window: the ring of buckets *)

Record window := mkWindow { buckets : list Bucket; w_size : Z }.

Definition set_bucket (w : window) (i : Z) (b : Bucket) : window :=
  {| buckets := <[Z.to_nat i := b]> (buckets w); w_size := w_size w |}.

(** [make] panics when the length is negative or beyond what a slice can
    hold; otherwise it allocates the slice and the loop stores a fresh zero
    [Bucket] behind every slot, unless the runtime runs out of memory on
    the way, which is a fatal error. *)
Definition newWindow (heap : Z) (size : Z) : result window :=
  if (size <? 0) || (maxAlloc <? size * ptrSize)
  then Panic "makeslice: len out of range"
  else if heap <? size
  then Panic "fatal error: runtime: out of memory"
  else Ok {| buckets := replicate (Z.to_nat size) new_Bucket;
             w_size := size |}.

Definition window_add (w : window) (offset : Z) (v : float) : result window :=
  i ← I64.rem offset (w_size w);
  b ← index (buckets w) i;
  Ok (set_bucket w i (Bucket_add v b)).

Definition window_resetBucket (w : window) (offset : Z) : result window :=
  i ← I64.rem offset (w_size w);
  b ← index (buckets w) i;
  Ok (set_bucket w i (Bucket_reset b)).

(** A visitor [fn func(b *Bucket)] with the state [A] of its closure. *)
Definition visitor (A : Type) : Type := A -> Bucket -> A * Bucket.

Definition window_reduce {A} (w : window) (start count : Z) (fn : visitor A)
  (a : A) : result (window * A) :=
  for_range count
    (fun i '(w, a) =>
       j ← I64.rem (I64.add start i) (w_size w);
       b ← index (buckets w) j;
       let '(a', b') := fn a b in
       Ok (set_bucket w j b', a'))
    (w, a).

(** ** RollingWindow *)

Record RollingWindow := mkRollingWindow {
  size : Z;
  win : window;
  interval : Z;
  offset : Z;
  ignoreCurrent : bool;
  lastTime : Z
}.

Definition set_win (rw : RollingWindow) (w : window) : RollingWindow :=
  {| size := size rw; win := w; interval := interval rw;
     offset := offset rw; ignoreCurrent := ignoreCurrent rw;
     lastTime := lastTime rw |}.

Definition RollingWindowOption : Type := RollingWindow -> RollingWindow.

Definition IgnoreCurrentBucket : RollingWindowOption :=
  fun w =>
    {| size := size w; win := win w; interval := interval w;
       offset := offset w; ignoreCurrent := true; lastTime := lastTime w |}.

(** [now] is the reading of [timex.Now()] taken by the constructor and
    [heap] the number of buckets the runtime can allocate at that point. *)
Definition NewRollingWindow (heap : Z) (size_ : Z) (interval_ : Z) (now : Z)
  (opts : list RollingWindowOption) : result RollingWindow :=
  if size_ <? 1 then Panic "size must be greater than 0"
  else
    w ← newWindow heap size_;
    Ok (fold_left (fun rw opt => opt rw) opts
          {| size := size_; win := w; interval := interval_;
             offset := 0; ignoreCurrent := false; lastTime := now |}).

(** [timex.Since(d)] at clock reading [now]. *)
Definition Since (now d : Z) : Z := I64.sub now d.

Definition span (rw : RollingWindow) (now : Z) : result Z :=
  offset_ ← I64.div (Since now (lastTime rw)) (interval rw);
  if (0 <=? offset_) && (offset_ <? size rw) then Ok offset_
  else Ok (size rw).

(** [t1] is the reading inside [span], [t2] the later [timex.Now()]. *)
Definition updateOffset (rw : RollingWindow) (t1 t2 : Z)
  : result RollingWindow :=
  span_ ← span rw t1;
  if span_ <=? 0 then Ok rw
  else
    let offset_ := offset rw in
    w ← for_range span_
           (fun i w =>
              j ← I64.rem (I64.add (I64.add offset_ i) 1) (size rw);
              window_resetBucket w j)
           (win rw);
    new_offset ← I64.rem (I64.add offset_ span_) (size rw);
    r ← I64.rem (I64.sub t2 (lastTime rw)) (interval rw);
    Ok {| size := size rw; win := w; interval := interval rw;
          offset := new_offset; ignoreCurrent := ignoreCurrent rw;
          lastTime := I64.sub t2 r |}.

Definition Add (rw : RollingWindow) (t1 t2 : Z) (v : float)
  : result RollingWindow :=
  rw' ← updateOffset rw t1 t2;
  w ← window_add (win rw') (offset rw') v;
  Ok (set_win rw' w).

Definition Reduce {A} (rw : RollingWindow) (now : Z) (fn : visitor A) (a : A)
  : result (RollingWindow * A) :=
  span_ ← span rw now;
  let diff :=
    if (span_ =? 0) && ignoreCurrent rw then I64.sub (size rw) 1
    else I64.sub (size rw) span_ in
  if 0 <? diff then
    offset_ ← I64.rem (I64.add (I64.add (offset rw) span_) 1) (size rw);
    '(w, a') ← window_reduce (win rw) offset_ diff fn a;
    Ok (set_win rw w, a')
  else Ok (rw, a).

(** The visitor that appends every bucket it is shown and writes nothing. *)
Definition collect : visitor (list Bucket) := fun acc b => (acc ++ [b], b).

Definition visited (rw : RollingWindow) (now : Z) : result (list Bucket) :=
  '(_, l) ← Reduce rw now collect []; Ok l.

(** * Vocabulary of the properties *)

(** The largest ring [make] can allocate: [maxAlloc / ptrSize]. *)
Definition maxLen : Z := 2 ^ 45.

(** The shape of every window the constructor returns and every operation
    keeps: the ring has [size] buckets and the offset is one of its slots. *)
Record wf (rw : RollingWindow) : Prop := mk_wf {
  wf_size : 1 <= size rw <= maxLen;
  wf_w_size : w_size (win rw) = size rw;
  wf_len : Z.of_nat (length (buckets (win rw))) = size rw;
  wf_offset : 0 <= offset rw < size rw
}.

(** The options a caller outside the package can pass. *)
Definition public_options (opts : list RollingWindowOption) : Prop :=
  Forall (fun o => o = IgnoreCurrentBucket) opts.

(** The window [NewRollingWindow(3, 100)] returns at clock reading 0 (with
    room for its three buckets). *)
Definition fresh3 : RollingWindow :=
  {| size := 3;
     win := {| buckets := [new_Bucket; new_Bucket; new_Bucket];
               w_size := 3 |};
     interval := 100; offset := 0; ignoreCurrent := false; lastTime := 0 |}.

(** The value [span] computes from the truncated quotient. *)
Definition span_value (rw : RollingWindow) (now : Z) : Z :=
  let q := I64.wrap64 (Z.quot (I64.sub now (lastTime rw)) (interval rw)) in
  if (0 <=? q) && (q <? size rw) then q else size rw.

(** Writing the zero bucket into each of the slots [js], in order. *)
Definition reset_all (w : window) (js : list Z) : window :=
  foldl (fun w j => set_bucket w j new_Bucket) w js.

(** The slots [updateOffset] passes over when it slides by [s]. *)
Definition reset_slots (rw : RollingWindow) (s : Z) : list Z :=
  (fun i => (offset rw + i + 1) mod size rw) <$> seqZ 0 s.

(** The state after a slide by [s] seen at the second clock reading [t2]. *)
Definition slid (rw : RollingWindow) (s t2 : Z) : RollingWindow :=
  {| size := size rw;
     win := reset_all (win rw) (reset_slots rw s);
     interval := interval rw;
     offset := (offset rw + s) mod size rw;
     ignoreCurrent := ignoreCurrent rw;
     lastTime :=
       I64.sub t2 (Z.rem (I64.sub t2 (lastTime rw)) (interval rw)) |}.

(** The span in the words of the specification: the floor of the exact
    quotient when it lies in [0, size), and [size] in every other case. *)
Definition span_floor (rw : RollingWindow) (now : Z) : Z :=
  let q := (now - lastTime rw) / interval rw in
  if (0 <=? q) && (q <? size rw) then q else size rw.

(** The same with the quotient truncated toward zero. *)
Definition span_trunc (rw : RollingWindow) (now : Z) : Z :=
  let q := Z.quot (now - lastTime rw) (interval rw) in
  if (0 <=? q) && (q <? size rw) then q else size rw.

(** One call of the visitor on the bucket of slot [j]. *)
Definition visit {A} (fn : visitor A) (st : window * A) (j : Z)
  : window * A :=
  match buckets st.1 !! Z.to_nat j with
  | Some b => let '(a', b') := fn st.2 b in (set_bucket st.1 j b', a')
  | None => st
  end.

(** The visitor called on the slots [js], one after the other. *)
Definition visit_all {A} (fn : visitor A) (w : window) (a : A) (js : list Z)
  : window * A :=
  foldl (visit fn) (w, a) js.

(** The number of buckets [Reduce] reads when the span is [s]. *)
Definition reduce_diff (rw : RollingWindow) (s : Z) : Z :=
  if (s =? 0) && ignoreCurrent rw then size rw - 1 else size rw - s.

(** [diff] slots in ring order from slot [(offset + s + 1) mod size]. *)
Definition reduce_slots (rw : RollingWindow) (s diff : Z) : list Z :=
  (fun i => ((offset rw + s + 1) mod size rw + i) mod size rw)
    <$> seqZ 0 diff.

(** A visitor that writes nothing through the pointer it receives. *)
Definition read_only {A} (fn : visitor A) : Prop :=
  forall a b, (fn a b).2 = b.

(** [reach t0 t k rw]: [rw] was built at clock reading [t0] and has since
    gone through [k] calls of [Add] and any number of calls of [Reduce]
    with read-only visitors; [t] is the last clock reading taken.  The
    clock counts the time since the process started and never runs
    backwards. *)
Inductive reach (t0 : Z) : Z -> Z -> RollingWindow -> Prop :=
| reach_New heap n iv opts rw :
    0 <= t0 <= I64.max_int ->
    public_options opts ->
    NewRollingWindow heap n iv t0 opts = Ok rw ->
    reach t0 t0 0 rw
| reach_Add t k rw t1 t2 v rw' :
    reach t0 t k rw ->
    t <= t1 <= t2 -> t2 <= I64.max_int ->
    Add rw t1 t2 v = Ok rw' ->
    reach t0 t2 (k + 1) rw'
| reach_Reduce (A : Type) t k rw t1 (fn : visitor A) a rw' a' :
    reach t0 t k rw ->
    t <= t1 <= I64.max_int ->
    read_only fn ->
    Reduce rw t1 fn a = Ok (rw', a') ->
    reach t0 t1 k rw'.

(** What holds of a bucket after at most [k] additions. *)
Definition bucket_ok (k : Z) (b : Bucket) : Prop :=
  0 <= Count b <= k /\ (Count b = 0 -> Sum b = 0%float).

(** The window [fresh3] after [n] calls of [Add(1)] at clock reading 0. *)
Definition after_adds (n : nat) : RollingWindow :=
  set_win fresh3
    {| buckets :=
         [ {| Sum := Nat.iter n (fun f => (f + 1)%float) 0%float;
              Count := I64.wrap64 (Z.of_nat n) |};
           new_Bucket; new_Bucket ];
       w_size := 3 |}.

(** [NewRollingWindow(3, 100, IgnoreCurrentBucket())] at clock reading 0. *)
Definition fresh3_ignoring : RollingWindow := IgnoreCurrentBucket fresh3.

(** [time.Millisecond] and [time.Second], in nanoseconds. *)
Definition Millisecond : Z := 1000000.
Definition Second : Z := 1000000000.

(** The three states of the second scenario: a window of size 5 and
    interval 1s built at clock reading [t0]; after [Add(v)] at [t0]; after
    [Add(v')] one interval later. *)
Definition built5 (t0 : Z) (ic : bool) : RollingWindow :=
  {| size := 5;
     win := {| buckets := replicate 5 new_Bucket; w_size := 5 |};
     interval := Second; offset := 0; ignoreCurrent := ic; lastTime := t0 |}.

Definition first5 (t0 : Z) (ic : bool) (v : float) : RollingWindow :=
  {| size := 5;
     win := {| buckets := [ {| Sum := 0 + v; Count := 1 |}; new_Bucket;
                            new_Bucket; new_Bucket; new_Bucket ];
               w_size := 5 |};
     interval := Second; offset := 0; ignoreCurrent := ic; lastTime := t0 |}.

Definition second5 (t0 : Z) (ic : bool) (v v' : float) : RollingWindow :=
  {| size := 5;
     win := {| buckets := [ {| Sum := 0 + v; Count := 1 |};
                            {| Sum := 0 + v'; Count := 1 |};
                            new_Bucket; new_Bucket; new_Bucket ];
               w_size := 5 |};
     interval := Second; offset := 1; ignoreCurrent := ic;
     lastTime := t0 + Second |}.

(** The bucket a slot points to (the zero bucket outside the ring). *)
Definition bucket_at (w : window) (j : Z) : Bucket :=
  default new_Bucket (buckets w !! Z.to_nat j).

(** The number of additions a ring holds: the sum of its counts. *)
Definition total_count (l : list Bucket) : Z :=
  foldr (fun b acc => Count b + acc) 0 l.

(** [fresh3] after [Add(1)] at clock reading 0, [Add(2)] at 150, [Add(3)]
    at 250 and [Add(4)] at 350: the ring has gone round once, and the last
    [Add] has reset the bucket of the first before writing into it. *)
Definition busy3 : RollingWindow :=
  {| size := 3;
     win := {| buckets := [mkBucket 4 1; mkBucket 2 1; mkBucket 3 1];
               w_size := 3 |};
     interval := 100; offset := 0; ignoreCurrent := false; lastTime := 300 |}.


(** * Properties *)

Example smoke :
  (rw ← NewRollingWindow 3 3 100 0 [];
   rw ← Add rw 0 0 1%float;
   rw ← Add rw 150 150 2%float;
   visited rw 150)
  = Ok [new_Bucket; mkBucket 1 1; mkBucket 2 1].
Proof. vm_compute. reflexivity. Qed.

(** ** The monad *)

Lemma bind_Ok {A B} (a : A) (k : A -> result B) : (Ok a ≫= k) = k a.
Proof. reflexivity. Qed.

Lemma bind_Panic {A B} m (k : A -> result B) : (Panic m ≫= k) = Panic m.
Proof. reflexivity. Qed.

Lemma bind_Ok_inv {A B} (r : result A) (k : A -> result B) b :
  (r ≫= k) = Ok b -> exists a, r = Ok a /\ k a = Ok b.
Proof. destruct r as [a|m]; [eauto | discriminate]. Qed.

(** ** Machine arithmetic *)

Module I64Facts.
Import I64.

Lemma wrap64_id z : in_range z -> wrap64 z = z.
Proof.
  unfold in_range, min_int, max_int, wrap64. intros H.
  rewrite Z.mod_small; lia.
Qed.

Lemma wrap64_range z : in_range (wrap64 z).
Proof.
  unfold in_range, min_int, max_int, wrap64.
  pose proof (Z.mod_pos_bound (z + 2 ^ 63) (2 ^ 64)). lia.
Qed.

Lemma add_id a b : in_range (a + b) -> add a b = a + b.
Proof. apply wrap64_id. Qed.

Lemma sub_id a b : in_range (a - b) -> sub a b = a - b.
Proof. apply wrap64_id. Qed.

Lemma rem_Ok a b : b <> 0 -> rem a b = Ok (Z.rem a b).
Proof. unfold rem. intros H. destruct (Z.eqb_spec b 0); [lia | done]. Qed.

Lemma rem_mod a b : 0 <= a -> 0 < b -> rem a b = Ok (a mod b).
Proof.
  intros Ha Hb. rewrite rem_Ok by lia. f_equal. apply Z.rem_mod_nonneg; lia.
Qed.

Lemma div_Ok a b : b <> 0 -> div a b = Ok (wrap64 (Z.quot a b)).
Proof. unfold div. intros H. destruct (Z.eqb_spec b 0); [lia | done]. Qed.

Lemma div_zero a : div a 0 = Panic "integer divide by zero".
Proof. reflexivity. Qed.

Lemma div_floor a b : 0 <= a <= max_int -> 0 < b -> div a b = Ok (a / b).
Proof.
  intros Ha Hb. rewrite div_Ok by lia. f_equal.
  rewrite Z.quot_div_nonneg by lia.
  apply wrap64_id. unfold in_range, min_int, max_int in *.
  pose proof (Z.div_pos a b). pose proof (Z.div_le_upper_bound a b a).
  nia.
Qed.

End I64Facts.

(** ** Loops *)

Lemma for_from_foldl {St} (P : St -> Prop) (f : Z -> St -> St)
    (body : Z -> St -> result St) n i s :
  (forall k s, i <= k < i + Z.of_nat n -> P s ->
     body k s = Ok (f k s) /\ P (f k s)) ->
  P s ->
  for_from i n body s = Ok (foldl (fun s k => f k s) s (seqZ i (Z.of_nat n)))
  /\ P (foldl (fun s k => f k s) s (seqZ i (Z.of_nat n))).
Proof.
  revert i s. induction n as [|n IH]; intros i s Hbody Hs.
  - simpl. done.
  - rewrite seqZ_cons by lia. simpl foldl. cbn [for_from].
    destruct (Hbody i s) as [-> HP]; [lia | done |].
    rewrite bind_Ok.
    replace (Z.pred (Z.of_nat (S n))) with (Z.of_nat n) by lia.
    replace (Z.succ i) with (i + 1) by lia.
    apply IH; [| done]. intros k s' Hk. apply Hbody. lia.
Qed.

Lemma for_range_foldl {St} (P : St -> Prop) (f : Z -> St -> St)
    (body : Z -> St -> result St) count s :
  0 <= count ->
  (forall k s, 0 <= k < count -> P s -> body k s = Ok (f k s) /\ P (f k s)) ->
  P s ->
  for_range count body s = Ok (foldl (fun s k => f k s) s (seqZ 0 count))
  /\ P (foldl (fun s k => f k s) s (seqZ 0 count)).
Proof.
  intros Hc Hbody Hs. unfold for_range.
  rewrite <- (Z2Nat.id count) at 2 3 by done.
  apply for_from_foldl; [| done]. intros k s' Hk. apply Hbody. lia.
Qed.

(** ** Well-formed rolling windows *)

Lemma fold_options opts rw :
  public_options opts ->
  let rw' := fold_left (fun rw opt => opt rw) opts rw in
  size rw' = size rw /\ win rw' = win rw /\ interval rw' = interval rw /\
  offset rw' = offset rw /\ lastTime rw' = lastTime rw /\
  ignoreCurrent rw' = ignoreCurrent rw || bool_decide (opts <> []).
Proof.
  intros H. revert rw. induction H as [|o opts -> _ IH]; intros rw; simpl.
  - rewrite orb_false_r. done.
  - destruct (IH (IgnoreCurrentBucket rw)) as (?&?&?&?&?&E).
    repeat split; try done. rewrite E. simpl. by rewrite orb_true_r.
Qed.

Lemma newWindow_Ok {heap} n :
  0 <= n <= maxLen -> n <= heap ->
  newWindow heap n = Ok {| buckets := replicate (Z.to_nat n) new_Bucket;
                      w_size := n |}.
Proof.
  unfold newWindow, maxLen, maxAlloc, ptrSize. intros H Hh.
  destruct (Z.ltb_spec n 0); [lia |].
  destruct (Z.ltb_spec (2 ^ 48) (n * 8)); [lia |].
  destruct (Z.ltb_spec heap n); [lia | done].
Qed.

Lemma NewRollingWindow_Ok {heap} n iv now opts :
  1 <= n <= maxLen -> n <= heap ->
  NewRollingWindow heap n iv now opts =
  Ok (fold_left (fun rw opt => opt rw) opts
        {| size := n;
           win := {| buckets := replicate (Z.to_nat n) new_Bucket;
                     w_size := n |};
           interval := iv; offset := 0; ignoreCurrent := false;
           lastTime := now |}).
Proof.
  intros H Hh. unfold NewRollingWindow.
  destruct (Z.ltb_spec n 1); [lia |].
  rewrite newWindow_Ok by lia. done.
Qed.

Lemma NewRollingWindow_inv {heap} n iv now opts rw :
  NewRollingWindow heap n iv now opts = Ok rw ->
  1 <= n <= maxLen /\ n <= heap.
Proof.
  unfold NewRollingWindow, newWindow, maxLen, maxAlloc, ptrSize.
  destruct (Z.ltb_spec n 1); [discriminate |].
  destruct (Z.ltb_spec n 0); [lia |].
  destruct (Z.ltb_spec (2 ^ 48) (n * 8)); [discriminate |].
  destruct (Z.ltb_spec heap n); [discriminate | lia].
Qed.

Lemma NewRollingWindow_wf {heap} n iv now opts rw :
  public_options opts ->
  NewRollingWindow heap n iv now opts = Ok rw ->
  wf rw /\ size rw = n /\ interval rw = iv /\ lastTime rw = now /\
  offset rw = 0 /\ ignoreCurrent rw = bool_decide (opts <> []) /\
  buckets (win rw) = replicate (Z.to_nat n) new_Bucket.
Proof.
  intros Ho H. pose proof (NewRollingWindow_inv _ _ _ _ _ H) as [Hn Hh].
  rewrite NewRollingWindow_Ok in H by done. injection H as <-.
  match goal with |- context [fold_left _ _ ?r] =>
    destruct (fold_options opts r Ho) as (Es & Ew & Ei & Eo & El & Eg) end.
  simpl in *. repeat split; try done.
  - rewrite Es. lia.
  - rewrite Es. lia.
  - by rewrite Ew, Es.
  - rewrite Ew, Es. simpl. rewrite length_replicate. lia.
  - rewrite Eo. lia.
  - rewrite Eo, Es. lia.
  - by rewrite Ew.
Qed.

Lemma fresh3_new : NewRollingWindow 3 3 100 0 [] = Ok fresh3.
Proof. reflexivity. Qed.

Lemma fresh3_wf : wf fresh3.
Proof. by split. Qed.

(** ** span *)

Lemma span_Ok rw now :
  interval rw <> 0 -> span rw now = Ok (span_value rw now).
Proof.
  intros H. unfold span, span_value, Since.
  rewrite I64Facts.div_Ok by done. rewrite bind_Ok.
  by destruct (_ && _).
Qed.

Lemma span_zero_interval rw now :
  interval rw = 0 -> span rw now = Panic "integer divide by zero".
Proof. intros H. unfold span. rewrite H. reflexivity. Qed.

Lemma span_inv rw now s :
  span rw now = Ok s -> interval rw <> 0 /\ s = span_value rw now.
Proof.
  intros H. destruct (decide (interval rw = 0)) as [E|E].
  - rewrite span_zero_interval in H by done. discriminate.
  - rewrite span_Ok in H by done. by injection H as <-.
Qed.

Lemma span_value_bounds rw now :
  1 <= size rw -> 0 <= span_value rw now <= size rw.
Proof.
  intros H. unfold span_value. cbv zeta.
  destruct (Z.leb_spec 0 (I64.wrap64 (Z.quot (I64.sub now (lastTime rw))
                                        (interval rw))));
    destruct (Z.ltb_spec (I64.wrap64 (Z.quot (I64.sub now (lastTime rw))
                                        (interval rw))) (size rw));
    simpl; lia.
Qed.

Lemma span_bounds rw now s :
  wf rw -> span rw now = Ok s -> 0 <= s <= size rw.
Proof.
  intros Hwf H. apply span_inv in H as [_ ->].
  apply span_value_bounds, Hwf.
Qed.

(** With a clock that has not run backwards and a positive interval the
    quotient is the floor of the exact one. *)
Lemma span_value_floor rw now :
  0 <= lastTime rw <= now -> now <= I64.max_int -> 0 < interval rw ->
  span_value rw now =
  if (now - lastTime rw) / interval rw <? size rw
  then (now - lastTime rw) / interval rw else size rw.
Proof.
  intros Hl Hn Hi. unfold span_value. cbv zeta.
  rewrite I64Facts.sub_id
    by (unfold I64.in_range, I64.min_int, I64.max_int in *; lia).
  assert (E : I64.div (now - lastTime rw) (interval rw)
              = Ok ((now - lastTime rw) / interval rw))
    by (apply I64Facts.div_floor; unfold I64.max_int in *; lia).
  rewrite I64Facts.div_Ok in E by lia. injection E as ->.
  assert (0 <= (now - lastTime rw) / interval rw)
    by (apply Z.div_pos; lia).
  destruct (Z.leb_spec 0 ((now - lastTime rw) / interval rw)); [| lia].
  done.
Qed.

(** ** Slots of the ring *)

Lemma ring_inj sz c x y :
  0 < sz -> 0 <= x < sz -> 0 <= y < sz ->
  (c + x) mod sz = (c + y) mod sz -> x = y.
Proof.
  intros Hsz Hx Hy E.
  pose proof (Z.div_mod (c + x) sz). pose proof (Z.div_mod (c + y) sz).
  assert (sz * ((c + x) / sz - (c + y) / sz) = x - y) by lia.
  assert ((c + x) / sz - (c + y) / sz = 0) by nia. lia.
Qed.

Lemma ring_NoDup sz (f : Z -> Z) c n :
  0 < sz -> n <= sz -> (forall i, f i = (c + i) mod sz) ->
  NoDup (f <$> seqZ 0 n).
Proof.
  intros Hsz Hn Hf. apply NoDup_fmap_2_strong; [| apply NoDup_seqZ].
  intros x y Hx%elem_of_seqZ Hy%elem_of_seqZ E. rewrite !Hf in E.
  eapply ring_inj; [| | | exact E]; lia.
Qed.

Lemma reset_slots_NoDup rw s :
  wf rw -> s <= size rw -> NoDup (reset_slots rw s).
Proof.
  intros Hwf Hs. apply (ring_NoDup (size rw) _ (offset rw + 1)).
  - destruct Hwf. lia.
  - done.
  - intros i. f_equal. lia.
Qed.

Lemma reset_slots_length rw s : length (reset_slots rw s) = Z.to_nat s.
Proof. unfold reset_slots. by rewrite length_fmap, length_seqZ. Qed.

Lemma reset_slots_range rw s j :
  wf rw -> j ∈ reset_slots rw s -> 0 <= j < size rw.
Proof.
  intros Hwf (i & -> & _)%list_elem_of_fmap.
  apply Z.mod_pos_bound. destruct Hwf. lia.
Qed.

Lemma reset_all_w_size w js : w_size (reset_all w js) = w_size w.
Proof.
  revert w. induction js as [|j js IH]; intros w; [done |].
  simpl. by rewrite IH.
Qed.

Lemma reset_all_length w js :
  length (buckets (reset_all w js)) = length (buckets w).
Proof.
  revert w. induction js as [|j js IH]; intros w; [done |].
  simpl. rewrite IH. simpl. apply length_insert.
Qed.

Lemma reset_all_lookup w js j :
  0 <= j < Z.of_nat (length (buckets w)) ->
  Forall (fun k => 0 <= k) js ->
  buckets (reset_all w js) !! Z.to_nat j =
  if decide (j ∈ js) then Some new_Bucket else buckets w !! Z.to_nat j.
Proof.
  intros Hj Hjs. revert w Hj.
  induction Hjs as [|k js Hk _ IH]; intros w Hj.
  - cbn [reset_all foldl]. case_decide as Hin; [| done].
    by apply not_elem_of_nil in Hin.
  - cbn [reset_all foldl]. fold (reset_all (set_bucket w k new_Bucket) js).
    rewrite IH by (simpl; rewrite length_insert; lia).
    destruct (decide (j ∈ js)) as [Hin|Hin].
    + rewrite decide_True by (by right). done.
    + simpl. destruct (decide (j = k)) as [->|Hne].
      * rewrite decide_True by left.
        apply list_lookup_insert_eq. lia.
      * rewrite decide_False by (rewrite elem_of_cons; tauto).
        apply list_lookup_insert_ne. lia.
Qed.

(** ** updateOffset *)

Lemma window_resetBucket_Ok w j :
  0 <= j < w_size w -> Z.of_nat (length (buckets w)) = w_size w ->
  window_resetBucket w j = Ok (set_bucket w j new_Bucket).
Proof.
  intros Hj Hlen. unfold window_resetBucket.
  rewrite I64Facts.rem_mod by lia. rewrite bind_Ok.
  rewrite Z.mod_small by lia. unfold index.
  destruct (Z.ltb_spec j 0); [lia |].
  destruct (lookup_lt_is_Some_2 (buckets w) (Z.to_nat j)) as [b ->]; [lia |].
  done.
Qed.

Lemma updateOffset_rest rw t1 t2 :
  span rw t1 = Ok 0 -> updateOffset rw t1 t2 = Ok rw.
Proof. intros H. unfold updateOffset. by rewrite H. Qed.

Lemma updateOffset_slide rw t1 t2 s :
  wf rw -> span rw t1 = Ok s -> 0 < s ->
  updateOffset rw t1 t2 = Ok (slid rw s t2).
Proof.
  intros Hwf Hspan Hs.
  pose proof (span_bounds _ _ _ Hwf Hspan) as Hb.
  destruct (span_inv _ _ _ Hspan) as [Hi _].
  destruct Hwf as [Hsz Hws Hlen Hoff]. unfold maxLen in Hsz.
  unfold updateOffset. rewrite Hspan, bind_Ok.
  destruct (Z.leb_spec s 0); [lia |].
  destruct (for_range_foldl
              (fun w => w_size w = size rw /\
                        Z.of_nat (length (buckets w)) = size rw)
              (fun i w => set_bucket w ((offset rw + i + 1) mod size rw)
                            new_Bucket)
              (fun i w =>
                 j ← I64.rem (I64.add (I64.add (offset rw) i) 1) (size rw);
                 window_resetBucket w j)
              s (win rw)) as [-> _]; [lia | | done |].
  { intros k w Hk [Hw Hl].
    rewrite !I64Facts.add_id
      by (rewrite ?I64Facts.add_id;
          unfold I64.in_range, I64.min_int, I64.max_int; lia).
    rewrite I64Facts.rem_mod by lia. rewrite bind_Ok.
    pose proof (Z.mod_pos_bound (offset rw + k + 1) (size rw)).
    rewrite window_resetBucket_Ok by lia.
    repeat split; simpl; [done | rewrite length_insert; lia]. }
  rewrite bind_Ok.
  rewrite I64Facts.add_id
    by (unfold I64.in_range, I64.min_int, I64.max_int; lia).
  rewrite (I64Facts.rem_mod (offset rw + s)) by lia. rewrite bind_Ok.
  rewrite I64Facts.rem_Ok by done. rewrite bind_Ok.
  unfold slid, reset_all, reset_slots. rewrite foldl_fmap. done.
Qed.

Lemma slid_wf rw s t2 : wf rw -> wf (slid rw s t2).
Proof.
  intros [Hsz Hws Hlen Hoff]. split; simpl.
  - done.
  - by rewrite reset_all_w_size.
  - by rewrite reset_all_length.
  - apply Z.mod_pos_bound. lia.
Qed.

Lemma updateOffset_wf rw t1 t2 rw' :
  wf rw -> updateOffset rw t1 t2 = Ok rw' ->
  wf rw' /\ size rw' = size rw /\ interval rw' = interval rw /\
  ignoreCurrent rw' = ignoreCurrent rw.
Proof.
  intros Hwf H.
  destruct (bind_Ok_inv _ _ _ H) as (s & Hspan & _).
  pose proof (span_bounds _ _ _ Hwf Hspan).
  destruct (decide (s = 0)) as [->|Hne].
  - rewrite updateOffset_rest in H by done. by injection H as <-.
  - rewrite (updateOffset_slide _ _ _ s) in H by (done || lia).
    injection H as <-. split; [by apply slid_wf | done].
Qed.

(** C1: on a well-formed window, with [s] the span [updateOffset] reads,
    [s <= 0] leaves the whole state as it was; otherwise the call succeeds,
    the new offset is [(offset + s) mod size], the slots
    [(offset + i + 1) mod size] for [i] in [0..s-1] are [s] distinct slots
    and hold the zero bucket afterwards, and every other slot keeps its
    bucket; in both cases the resulting offset lies in [0, size). *)
Theorem updateOffset_spec rw t1 t2 s :
  wf rw -> span rw t1 = Ok s ->
  (s <= 0 -> updateOffset rw t1 t2 = Ok rw) /\
  (0 < s ->
   exists rw',
     updateOffset rw t1 t2 = Ok rw' /\
     size rw' = size rw /\
     offset rw' = (offset rw + s) mod size rw /\
     NoDup (reset_slots rw s) /\
     Z.of_nat (length (reset_slots rw s)) = s /\
     (forall j, 0 <= j < size rw ->
        buckets (win rw') !! Z.to_nat j =
        if decide (j ∈ reset_slots rw s) then Some new_Bucket
        else buckets (win rw) !! Z.to_nat j)) /\
  (forall rw', updateOffset rw t1 t2 = Ok rw' ->
     0 <= offset rw' < size rw').
Proof.
  intros Hwf Hspan. pose proof (span_bounds _ _ _ Hwf Hspan) as Hb.
  split; [| split].
  - intros Hs. apply updateOffset_rest. by replace s with 0 in Hspan by lia.
  - intros Hs. exists (slid rw s t2).
    split; [by apply updateOffset_slide |].
    split; [done |]. split; [done |].
    split; [apply reset_slots_NoDup; [done | lia] |].
    split; [rewrite reset_slots_length; lia |].
    intros j Hj. simpl. apply reset_all_lookup.
    + destruct Hwf. lia.
    + apply Forall_forall. intros k Hk.
      by apply (reset_slots_range rw s k Hwf).
  - intros rw' H. apply updateOffset_wf in H as [[] _]; done.
Qed.

Lemma updateOffset_spec_witness :
  exists rw',
    updateOffset fresh3 250 250 = Ok rw' /\
    offset rw' = 2 /\
    buckets (win rw') !! 1%nat = Some new_Bucket.
Proof.
  destruct (updateOffset_spec fresh3 250 250 2 fresh3_wf eq_refl)
    as (_ & H & _).
  destruct H as (rw' & Hu & _ & Ho & _ & _ & Hb); [lia |].
  exists rw'. split; [exact Hu |]. split; [exact Ho |].
  apply (Hb 1). simpl. lia.
Defined.

(** ** span against the floor of the specification *)

Lemma quot_abs_le a b : b <> 0 -> Z.abs (Z.quot a b) <= Z.abs a.
Proof.
  intros Hb. rewrite <- Z.quot_abs by done.
  rewrite Z.quot_div_nonneg by lia.
  apply Z.div_le_upper_bound; [lia |].
  assert (0 <= Z.abs a) by lia. nia.
Qed.

Lemma span_value_trunc rw now :
  interval rw <> 0 -> I64.in_range (now - lastTime rw) ->
  size rw <= I64.max_int ->
  span_value rw now = span_trunc rw now.
Proof.
  intros Hi Hr Hs. unfold span_value, span_trunc. cbv zeta.
  rewrite I64Facts.sub_id by done.
  pose proof (quot_abs_le (now - lastTime rw) (interval rw) Hi) as Hq.
  unfold I64.in_range, I64.min_int, I64.max_int in *.
  destruct (decide (Z.quot (now - lastTime rw) (interval rw) = 2 ^ 63))
    as [E|E].
  - rewrite E. change (I64.wrap64 (2 ^ 63)) with (- 2 ^ 63). simpl.
    destruct (Z.ltb_spec (2 ^ 63) (size rw)); [lia | done].
  - rewrite I64Facts.wrap64_id; [done |].
    unfold I64.in_range, I64.min_int, I64.max_int. lia.
Qed.

(** C2 (amended): [span] returns the quotient [(now - lastTime) / interval]
    truncated toward zero when it lies in [0, size) and [size] in every
    other case; when the clock has not run backwards and the interval is
    positive this is the floor of the quotient, clamped to [size]. *)
Theorem span_spec rw now :
  interval rw <> 0 ->
  span rw now = Ok (span_value rw now) /\
  (I64.in_range (now - lastTime rw) -> size rw <= I64.max_int ->
   span_value rw now = span_trunc rw now) /\
  (0 <= lastTime rw <= now -> now <= I64.max_int -> 0 < interval rw ->
   span_value rw now = span_floor rw now).
Proof.
  intros Hi. split; [by apply span_Ok |]. split.
  - by apply span_value_trunc.
  - intros Hl Hn Hp. rewrite span_value_floor by done.
    unfold span_floor. cbv zeta.
    assert (0 <= (now - lastTime rw) / interval rw) by (apply Z.div_pos; lia).
    destruct (Z.leb_spec 0 ((now - lastTime rw) / interval rw)); [| lia].
    done.
Qed.

Lemma span_spec_witness :
  span fresh3 250 = Ok (span_value fresh3 250) /\
  span_value fresh3 250 = span_trunc fresh3 250 /\
  span_value fresh3 250 = span_floor fresh3 250.
Proof.
  destruct (span_spec fresh3 250) as (H1 & H2 & H3); [done |].
  split; [exact H1 |]. split.
  - apply H2; done.
  - apply H3; [simpl; lia | done | simpl; lia].
Defined.

(** C2 (as stated) fails when the clock reads less than [lastTime] by less
    than one interval: the window built at clock 100 with interval 100 and
    size 3, read at clock 50, has span 0, where the floor of -50/100 is -1
    and the claim asks for [size]. *)
Lemma span_floor_counterexample :
  exists rw,
    NewRollingWindow 3 3 100 100 [] = Ok rw /\
    span rw 50 = Ok 0 /\ span_floor rw 50 = 3 /\
    span rw 50 <> Ok (span_floor rw 50).
Proof. eexists. split; [reflexivity |]. by vm_compute. Qed.

(** ** Reduce *)

Lemma set_win_id rw : set_win rw (win rw) = rw.
Proof. by destruct rw. Qed.

Lemma set_bucket_id w j b :
  buckets w !! Z.to_nat j = Some b -> set_bucket w j b = w.
Proof.
  intros H. unfold set_bucket. rewrite list_insert_id by done. by destruct w.
Qed.

Lemma visit_shape {A} (fn : visitor A) st j :
  w_size (visit fn st j).1 = w_size st.1 /\
  length (buckets (visit fn st j).1) = length (buckets st.1).
Proof.
  unfold visit. destruct (buckets st.1 !! Z.to_nat j) as [b|]; [| done].
  destruct (fn st.2 b) as [a' b']. simpl. by rewrite length_insert.
Qed.

Lemma window_reduce_Ok {A} (fn : visitor A) w start count a :
  1 <= w_size w <= maxLen -> Z.of_nat (length (buckets w)) = w_size w ->
  0 <= start < w_size w -> 0 <= count <= w_size w ->
  window_reduce w start count fn a =
  Ok (visit_all fn w a ((fun i => (start + i) mod w_size w) <$> seqZ 0 count)).
Proof.
  intros Hsz Hlen Hstart Hcount. unfold maxLen in Hsz.
  unfold window_reduce, visit_all. rewrite foldl_fmap.
  apply (for_range_foldl
           (fun st : window * A =>
              w_size st.1 = w_size w /\
              length (buckets st.1) = length (buckets w))
           (fun i st => visit fn st ((start + i) mod w_size w))).
  - lia.
  - intros k [w' a'] Hk [Hw Hl]. simpl in Hw, Hl. split.
    + rewrite I64Facts.add_id
        by (unfold I64.in_range, I64.min_int, I64.max_int; lia).
      rewrite Hw. rewrite I64Facts.rem_mod by lia. rewrite bind_Ok.
      pose proof (Z.mod_pos_bound (start + k) (w_size w)).
      unfold index, visit. simpl.
      destruct (Z.ltb_spec ((start + k) mod w_size w) 0); [lia |].
      destruct (lookup_lt_is_Some_2 (buckets w')
                  (Z.to_nat ((start + k) mod w_size w))) as [b ->]; [lia |].
      rewrite bind_Ok. by destruct (fn a' b).
    + destruct (visit_shape fn (w', a') ((start + k) mod w_size w)).
      simpl in *. split; congruence.
  - done.
Qed.

Lemma reduce_diff_bounds rw s :
  wf rw -> 0 <= s <= size rw -> 0 <= reduce_diff rw s <= size rw.
Proof.
  intros [] Hs. unfold reduce_diff. destruct (_ && _); lia.
Qed.

Lemma Reduce_eq {A} (fn : visitor A) rw now s a :
  wf rw -> span rw now = Ok s ->
  Reduce rw now fn a =
  Ok (let '(w, a') :=
        visit_all fn (win rw) a (reduce_slots rw s (reduce_diff rw s)) in
      (set_win rw w, a')).
Proof.
  intros Hwf Hspan. pose proof (span_bounds _ _ _ Hwf Hspan) as Hb.
  pose proof (reduce_diff_bounds rw s Hwf Hb) as Hd.
  destruct Hwf as [Hsz Hws Hlen Hoff].
  unfold Reduce. rewrite Hspan, bind_Ok.
  assert (E : (if (s =? 0) && ignoreCurrent rw then I64.sub (size rw) 1
               else I64.sub (size rw) s) = reduce_diff rw s).
  { unfold reduce_diff, maxLen in *.
    destruct (_ && _); apply I64Facts.sub_id;
      unfold I64.in_range, I64.min_int, I64.max_int; lia. }
  rewrite E. destruct (Z.ltb_spec 0 (reduce_diff rw s)) as [Hpos|Hpos].
  - unfold maxLen in Hsz.
    rewrite !I64Facts.add_id
      by (rewrite ?I64Facts.add_id;
          unfold I64.in_range, I64.min_int, I64.max_int; lia).
    rewrite I64Facts.rem_mod by lia. rewrite bind_Ok.
    pose proof (Z.mod_pos_bound (offset rw + s + 1) (size rw)).
    rewrite window_reduce_Ok by (unfold maxLen; lia).
    rewrite bind_Ok. unfold reduce_slots. rewrite Hws.
    by destruct (visit_all _ _ _ _).
  - unfold reduce_slots. rewrite seqZ_nil by done. simpl.
    by rewrite set_win_id.
Qed.

Lemma reduce_slots_length rw s diff :
  length (reduce_slots rw s diff) = Z.to_nat diff.
Proof. unfold reduce_slots. by rewrite length_fmap, length_seqZ. Qed.

Lemma reduce_slots_range rw s diff j :
  wf rw -> j ∈ reduce_slots rw s diff -> 0 <= j < size rw.
Proof.
  intros Hwf (i & -> & _)%list_elem_of_fmap.
  apply Z.mod_pos_bound. destruct Hwf. lia.
Qed.

Lemma reduce_slots_NoDup rw s diff :
  wf rw -> diff <= size rw -> NoDup (reduce_slots rw s diff).
Proof.
  intros Hwf Hd.
  apply (ring_NoDup (size rw) _ ((offset rw + s + 1) mod size rw));
    [destruct Hwf; lia | done | done].
Qed.

(** A read-only visitor leaves the ring as it found it. *)
Lemma visit_all_read_only {A} (fn : visitor A) w a js :
  read_only fn -> (visit_all fn w a js).1 = w.
Proof.
  intros Hro. unfold visit_all. revert w a.
  induction js as [|j js IH]; intros w a; [done |].
  simpl. unfold visit at 2. simpl.
  destruct (buckets w !! Z.to_nat j) as [b|] eqn:E; [| apply IH].
  pose proof (Hro a b) as Hb. destruct (fn a b) as [a' b']. simpl in Hb.
  subst b'. rewrite set_bucket_id by done. apply IH.
Qed.

(** What the collecting visitor has gathered after the slots [js]. *)
Lemma visit_all_collect w acc js :
  Forall (fun j => 0 <= j < Z.of_nat (length (buckets w))) js ->
  exists l,
    visit_all collect w acc js = (w, acc ++ l) /\
    Forall2 (fun j b => buckets w !! Z.to_nat j = Some b) js l.
Proof.
  intros H. revert acc. induction H as [|j js Hj _ IH]; intros acc.
  - exists []. by rewrite app_nil_r.
  - destruct (lookup_lt_is_Some_2 (buckets w) (Z.to_nat j)) as [b Hb];
      [lia |].
    destruct (IH (acc ++ [b])) as (l & E & Hl).
    exists (b :: l). split; [| by constructor].
    unfold visit_all in *. simpl. unfold visit at 2. simpl.
    rewrite Hb. simpl. rewrite set_bucket_id by done.
    rewrite E. by rewrite <- app_assoc.
Qed.

Lemma Reduce_nothing {A} (fn : visitor A) rw now s a :
  wf rw -> span rw now = Ok s -> reduce_diff rw s <= 0 ->
  Reduce rw now fn a = Ok (rw, a).
Proof.
  intros Hwf Hspan Hd. rewrite (Reduce_eq fn rw now s) by done.
  unfold reduce_slots. rewrite seqZ_nil by done. simpl.
  by rewrite set_win_id.
Qed.

Lemma visited_nothing rw now s :
  wf rw -> span rw now = Ok s -> reduce_diff rw s <= 0 ->
  visited rw now = Ok [].
Proof.
  intros Hwf Hspan Hd. unfold visited.
  by rewrite (Reduce_nothing collect rw now s).
Qed.

(** C3: on a well-formed window, with [s] the span [Reduce] reads and
    [diff] equal to [size - 1] when [s = 0] and ignoreCurrent is set and to
    [size - s] otherwise: when [diff > 0], [Reduce] is the visitor called
    on exactly the [diff] distinct slots that follow
    [(offset + s + 1) mod size] in ring order, each holding a bucket; when
    [diff <= 0] the visitor is not called and nothing changes. *)
Theorem Reduce_spec {A} (fn : visitor A) rw now s a :
  wf rw -> span rw now = Ok s ->
  let diff := reduce_diff rw s in
  let slots := reduce_slots rw s diff in
  (0 < diff ->
   Reduce rw now fn a =
     Ok (let '(w, a') := visit_all fn (win rw) a slots in
         (set_win rw w, a')) /\
   Z.of_nat (length slots) = diff /\
   NoDup slots /\
   Forall (fun j => 0 <= j < size rw) slots /\
   exists l,
     visited rw now = Ok l /\
     Forall2 (fun j b => buckets (win rw) !! Z.to_nat j = Some b) slots l) /\
  (diff <= 0 -> Reduce rw now fn a = Ok (rw, a) /\ visited rw now = Ok []).
Proof.
  intros Hwf Hspan diff slots.
  pose proof (span_bounds _ _ _ Hwf Hspan) as Hb.
  pose proof (reduce_diff_bounds rw s Hwf Hb) as Hd. fold diff in Hd.
  assert (Hr : Forall (fun j => 0 <= j < size rw) slots).
  { apply Forall_forall. intros j Hj.
    by apply (reduce_slots_range rw s diff j Hwf). }
  split.
  - intros Hpos. split; [by apply Reduce_eq |].
    split; [unfold slots; rewrite reduce_slots_length; lia |].
    split; [apply reduce_slots_NoDup; [done | lia] |].
    split; [done |].
    destruct (visit_all_collect (win rw) [] slots) as (l & E & Hl).
    { destruct Hwf as [_ _ Hlen _]. by rewrite Hlen. }
    exists l. split; [| done].
    unfold visited. rewrite (Reduce_eq collect rw now s) by done.
    fold diff. fold slots. rewrite E. done.
  - intros Hle. split.
    + by apply (Reduce_nothing fn rw now s).
    + by apply (visited_nothing rw now s).
Qed.

Lemma Reduce_spec_witness :
  exists l, visited fresh3 150 = Ok l /\ length l = 2%nat.
Proof.
  destruct (Reduce_spec collect fresh3 150 1 []) as [H _];
    [exact fresh3_wf | reflexivity |].
  destruct H as (_ & _ & _ & _ & l & Hv & Hl); [done |].
  exists l. split; [exact Hv |].
  by rewrite <- (Forall2_length _ _ _ Hl).
Defined.

Lemma Reduce_read_only {A} (fn : visitor A) rw now a :
  wf rw -> interval rw <> 0 -> read_only fn ->
  exists a', Reduce rw now fn a = Ok (rw, a').
Proof.
  intros Hwf Hi Hro.
  rewrite (Reduce_eq fn rw now (span_value rw now))
    by (done || by apply span_Ok).
  pose proof (visit_all_read_only fn (win rw) a
                (reduce_slots rw (span_value rw now)
                   (reduce_diff rw (span_value rw now))) Hro) as E.
  destruct (visit_all _ _ _ _) as [w a']. simpl in E. subst w.
  exists a'. by rewrite set_win_id.
Qed.

Lemma Reduce_read_only_inv {A} (fn : visitor A) rw now a rw' a' :
  wf rw -> read_only fn -> Reduce rw now fn a = Ok (rw', a') -> rw' = rw.
Proof.
  intros Hwf Hro H.
  destruct (bind_Ok_inv _ _ _ H) as (s & Hspan & _).
  destruct (span_inv _ _ _ Hspan) as [Hi _].
  destruct (Reduce_read_only fn rw now a Hwf Hi Hro) as [a'' E].
  rewrite E in H. by injection H as <- _.
Qed.

(** C9: on a well-formed window, [Reduce] with a visitor that does not
    write to the buckets returns the state it was given, with offset,
    lastTime and every bucket unchanged; and it does return when the
    interval is not zero. *)
Theorem Reduce_frame {A} (fn : visitor A) rw now a :
  wf rw -> read_only fn ->
  (forall rw' a', Reduce rw now fn a = Ok (rw', a') -> rw' = rw) /\
  (interval rw <> 0 -> exists a', Reduce rw now fn a = Ok (rw, a')).
Proof.
  intros Hwf Hro. split.
  - intros rw' a'. by apply Reduce_read_only_inv.
  - intros Hi. by apply Reduce_read_only.
Qed.

Lemma Reduce_frame_witness :
  exists a', Reduce fresh3 150 collect [] = Ok (fresh3, a').
Proof.
  destruct (Reduce_frame collect fresh3 150 []) as [_ H];
    [exact fresh3_wf | done |].
  by apply H.
Defined.

(** ** Add *)

Lemma window_add_Ok w j v :
  0 <= j < w_size w -> Z.of_nat (length (buckets w)) = w_size w ->
  exists b,
    buckets w !! Z.to_nat j = Some b /\
    window_add w j v = Ok (set_bucket w j (Bucket_add v b)).
Proof.
  intros Hj Hlen.
  destruct (lookup_lt_is_Some_2 (buckets w) (Z.to_nat j)) as [b Hb]; [lia |].
  exists b. split; [done |]. unfold window_add.
  rewrite I64Facts.rem_mod by lia. rewrite bind_Ok.
  rewrite Z.mod_small by lia. unfold index.
  destruct (Z.ltb_spec j 0); [lia |]. by rewrite Hb.
Qed.

Lemma updateOffset_inv rw t1 t2 rw1 :
  wf rw -> updateOffset rw t1 t2 = Ok rw1 ->
  (span rw t1 = Ok 0 /\ rw1 = rw) \/
  (exists s, span rw t1 = Ok s /\ 0 < s <= size rw /\ rw1 = slid rw s t2).
Proof.
  intros Hwf H.
  destruct (bind_Ok_inv _ _ _ H) as (s & Hspan & _).
  pose proof (span_bounds _ _ _ Hwf Hspan).
  destruct (decide (s = 0)) as [->|Hne].
  - rewrite updateOffset_rest in H by done. injection H as <-. by left.
  - rewrite (updateOffset_slide _ _ _ s) in H by (done || lia).
    injection H as <-. right. exists s. split; [done |]. split; [lia | done].
Qed.

Lemma updateOffset_Ok rw t1 t2 :
  wf rw -> interval rw <> 0 -> exists rw1, updateOffset rw t1 t2 = Ok rw1.
Proof.
  intros Hwf Hi. pose proof (span_Ok rw t1 Hi) as Hspan.
  pose proof (span_bounds _ _ _ Hwf Hspan).
  destruct (decide (span_value rw t1 = 0)) as [E|E].
  - exists rw. apply updateOffset_rest. by rewrite <- E.
  - eexists. apply (updateOffset_slide _ _ _ _ Hwf Hspan). lia.
Qed.

Lemma Add_inv rw t1 t2 v rw' :
  wf rw -> Add rw t1 t2 v = Ok rw' ->
  exists rw1 b,
    updateOffset rw t1 t2 = Ok rw1 /\
    buckets (win rw1) !! Z.to_nat (offset rw1) = Some b /\
    rw' = set_win rw1 (set_bucket (win rw1) (offset rw1) (Bucket_add v b)).
Proof.
  intros Hwf H. unfold Add in H.
  destruct (bind_Ok_inv _ _ _ H) as (rw1 & Hu & H1).
  destruct (updateOffset_wf _ _ _ _ Hwf Hu) as ([_ Hws Hlen Hoff] & _).
  destruct (window_add_Ok (win rw1) (offset rw1) v) as (b & Hb & E);
    [lia | lia |].
  rewrite E, bind_Ok in H1. injection H1 as <-. by exists rw1, b.
Qed.

Lemma Add_Ok rw t1 t2 v :
  wf rw -> interval rw <> 0 -> exists rw', Add rw t1 t2 v = Ok rw'.
Proof.
  intros Hwf Hi. destruct (updateOffset_Ok rw t1 t2 Hwf Hi) as [rw1 Hu].
  destruct (updateOffset_wf _ _ _ _ Hwf Hu) as ([_ Hws Hlen Hoff] & _).
  destruct (window_add_Ok (win rw1) (offset rw1) v) as (b & Hb & E);
    [lia | lia |].
  eexists. unfold Add. rewrite Hu, bind_Ok, E, bind_Ok. done.
Qed.

Lemma Add_wf rw t1 t2 v rw' :
  wf rw -> Add rw t1 t2 v = Ok rw' ->
  wf rw' /\ size rw' = size rw /\ interval rw' = interval rw /\
  ignoreCurrent rw' = ignoreCurrent rw.
Proof.
  intros Hwf H. destruct (Add_inv _ _ _ _ _ Hwf H) as (rw1 & b & Hu & Hb & ->).
  destruct (updateOffset_wf _ _ _ _ Hwf Hu) as ([] & ? & ? & ?).
  split; [| done]. split; simpl; try done. by rewrite length_insert.
Qed.

(** ** Reachable states *)

Lemma reach_wf t0 t k rw : reach t0 t k rw -> wf rw.
Proof.
  induction 1 as [heap n iv opts rw _ Ho Hn | t k rw t1 t2 v rw' _ IH _ _ HA
                 | A t k rw t1 fn a rw' a' _ IH _ Hro HR].
  - by destruct (NewRollingWindow_wf _ _ _ _ _ Ho Hn).
  - by destruct (Add_wf _ _ _ _ _ IH HA).
  - by rewrite (Reduce_read_only_inv _ _ _ _ _ _ IH Hro HR).
Qed.

Lemma reach_clock t0 t k rw :
  reach t0 t k rw -> 0 <= t0 <= t /\ t <= I64.max_int /\ 0 <= k.
Proof. induction 1; lia. Qed.

(** ** Alignment of lastTime *)

Lemma slid_lastTime rw s t2 :
  0 <= lastTime rw <= t2 -> t2 <= I64.max_int -> 0 < interval rw ->
  lastTime (slid rw s t2) = t2 - (t2 - lastTime rw) mod interval rw.
Proof.
  intros Hl Ht Hi. simpl.
  pose proof (Z.mod_pos_bound (t2 - lastTime rw) (interval rw) Hi).
  pose proof (Z.mod_le (t2 - lastTime rw) (interval rw)).
  unfold I64.max_int in Ht.
  rewrite (I64Facts.sub_id t2 (lastTime rw))
    by (unfold I64.in_range, I64.min_int, I64.max_int; lia).
  rewrite Z.rem_mod_nonneg by lia.
  apply I64Facts.sub_id.
  unfold I64.in_range, I64.min_int, I64.max_int; lia.
Qed.

Lemma realign_phase l t iv t0 :
  0 < iv -> (l - t0) mod iv = 0 -> (t - (t - l) mod iv - t0) mod iv = 0.
Proof.
  intros Hi Hl. pose proof (Z.div_mod (t - l) iv).
  replace (t - (t - l) mod iv - t0) with (l - t0 + (t - l) / iv * iv) by lia.
  by rewrite Z_mod_plus_full.
Qed.

Lemma reach_lastTime t0 t k rw :
  reach t0 t k rw -> 0 < interval rw ->
  t0 <= lastTime rw <= t /\ (lastTime rw - t0) mod interval rw = 0.
Proof.
  induction 1 as [heap n iv opts rw Ht0 Ho Hn | t k rw t1 t2 v rw' Hr IH Ht Hm HA
                 | A t k rw t1 fn a rw' a' Hr IH Ht Hro HR]; intros Hi.
  - destruct (NewRollingWindow_wf _ _ _ _ _ Ho Hn) as (_ & _ & _ & -> & _).
    rewrite Z.sub_diag. split; [lia | done].
  - pose proof (reach_wf _ _ _ _ Hr) as Hwf.
    pose proof (reach_clock _ _ _ _ Hr) as Hc.
    destruct (Add_inv _ _ _ _ _ Hwf HA) as (rw1 & b & Hu & _ & ->).
    simpl in *.
    destruct (updateOffset_inv _ _ _ _ Hwf Hu) as [[_ ->]|(s & _ & _ & ->)].
    + destruct (IH Hi). split; [lia | done].
    + simpl in Hi. destruct (IH Hi) as [Hl Hp].
      rewrite slid_lastTime by lia. simpl.
      pose proof (Z.mod_pos_bound (t2 - lastTime rw) (interval rw) Hi).
      pose proof (Z.mod_le (t2 - lastTime rw) (interval rw)).
      split; [lia | by apply realign_phase].
  - pose proof (reach_wf _ _ _ _ Hr) as Hwf.
    rewrite (Reduce_read_only_inv _ _ _ _ _ _ Hwf Hro HR) in *.
    destruct (IH Hi). split; [lia | done].
Qed.

(** C7: in every state reached from a construction at clock reading [t0]
    with a positive interval, [lastTime] is not later than the last clock
    reading and differs from [t0] by a whole number of intervals; and an
    [updateOffset] that slides (at readings [t1 <= t2] not earlier than the
    last one) sets [lastTime] to [t2 - ((t2 - lastTime) mod interval)], the
    last interval boundary at or before [t2]. *)
Theorem lastTime_aligned t0 t k rw :
  reach t0 t k rw -> 0 < interval rw ->
  (t0 <= lastTime rw <= t /\ (lastTime rw - t0) mod interval rw = 0) /\
  (forall t1 t2 s rw',
     t <= t1 <= t2 -> t2 <= I64.max_int ->
     span rw t1 = Ok s -> 0 < s ->
     updateOffset rw t1 t2 = Ok rw' ->
     lastTime rw' = t2 - (t2 - lastTime rw) mod interval rw /\
     lastTime rw' <= t2 < lastTime rw' + interval rw /\
     (lastTime rw' - t0) mod interval rw = 0).
Proof.
  intros Hr Hi. pose proof (reach_lastTime _ _ _ _ Hr Hi) as [Hl Hp].
  split; [done |]. intros t1 t2 s rw' Ht Hm Hspan Hs Hu.
  pose proof (reach_wf _ _ _ _ Hr) as Hwf.
  pose proof (reach_clock _ _ _ _ Hr) as Hc.
  rewrite (updateOffset_slide _ _ _ s) in Hu by done. injection Hu as <-.
  rewrite slid_lastTime by lia.
  pose proof (Z.mod_pos_bound (t2 - lastTime rw) (interval rw) Hi).
  split; [done |]. split; [lia |]. by apply realign_phase.
Qed.

Lemma fresh3_reach : reach 0 0 0 fresh3.
Proof.
  apply (reach_New 0 3 3 100 []); [done | constructor | reflexivity].
Qed.

Lemma busy3_reach : reach 0 350 4 busy3.
Proof.
  eapply (reach_Add 0 250 3 _ 350 350 4);
    [eapply (reach_Add 0 150 2 _ 250 250 3);
       [eapply (reach_Add 0 0 1 _ 150 150 2);
          [eapply (reach_Add 0 0 0 fresh3 0 0 1);
             [exact fresh3_reach | lia | done | vm_compute; reflexivity]
          | lia | done | vm_compute; reflexivity]
       | lia | done | vm_compute; reflexivity]
    | lia | done | vm_compute; reflexivity].
Qed.


Lemma lastTime_aligned_witness :
  (0 <= lastTime fresh3 <= 0 /\
   (lastTime fresh3 - 0) mod interval fresh3 = 0) /\
  (forall t1 t2 s rw',
     0 <= t1 <= t2 -> t2 <= I64.max_int ->
     span fresh3 t1 = Ok s -> 0 < s ->
     updateOffset fresh3 t1 t2 = Ok rw' ->
     lastTime rw' = t2 - (t2 - lastTime fresh3) mod interval fresh3 /\
     lastTime rw' <= t2 < lastTime rw' + interval fresh3 /\
     (lastTime rw' - 0) mod interval fresh3 = 0).
Proof.
  apply (lastTime_aligned 0 0 0 fresh3); [exact fresh3_reach | simpl; lia].
Defined.

(** ** Counts and sums of the buckets *)

Lemma bucket_ok_mono k k' b : k <= k' -> bucket_ok k b -> bucket_ok k' b.
Proof. unfold bucket_ok. intros ? [? ?]. split; [lia | done]. Qed.

Lemma bucket_ok_new k : 0 <= k -> bucket_ok k new_Bucket.
Proof. unfold bucket_ok. simpl. intros. split; [lia | done]. Qed.

Lemma bucket_ok_add k v b :
  k < I64.max_int -> bucket_ok k b -> bucket_ok (k + 1) (Bucket_add v b).
Proof.
  unfold bucket_ok. intros Hk [Hc _]. simpl.
  rewrite I64Facts.add_id
    by (unfold I64.in_range, I64.min_int, I64.max_int in *; lia).
  split; lia.
Qed.

Lemma reset_all_Forall (P : Bucket -> Prop) w js :
  P new_Bucket -> Forall P (buckets w) -> Forall P (buckets (reset_all w js)).
Proof.
  intros Hn. revert w. induction js as [|j js IH]; intros w Hw; [done |].
  apply IH. simpl. by apply Forall_insert.
Qed.

(** C10 (amended): in every state reached from construction by calls of
    [Add] and of [Reduce] with read-only visitors, of which at most
    [2^63 - 1] are calls of [Add], every bucket has a count that is not
    negative (and not above the number of calls of [Add]), and a bucket
    with count zero has sum zero. *)
Theorem buckets_ok t0 t k rw :
  reach t0 t k rw -> k <= I64.max_int ->
  Forall (fun b => 0 <= Count b <= k /\ (Count b = 0 -> Sum b = 0%float))
    (buckets (win rw)).
Proof.
  change (reach t0 t k rw -> k <= I64.max_int ->
          Forall (bucket_ok k) (buckets (win rw))).
  induction 1 as [heap n iv opts rw Ht0 Ho Hn | t k rw t1 t2 v rw' Hr IH Ht Hm HA
                 | A t k rw t1 fn a rw' a' Hr IH Ht Hro HR]; intros Hk.
  - destruct (NewRollingWindow_wf _ _ _ _ _ Ho Hn)
      as (_ & _ & _ & _ & _ & _ & ->).
    apply Forall_replicate. by apply bucket_ok_new.
  - pose proof (reach_wf _ _ _ _ Hr) as Hwf.
    pose proof (reach_clock _ _ _ _ Hr) as (_ & _ & Hk0).
    destruct (Add_inv _ _ _ _ _ Hwf HA) as (rw1 & b & Hu & Hb & ->).
    assert (H1 : Forall (bucket_ok k) (buckets (win rw1))).
    { destruct (updateOffset_inv _ _ _ _ Hwf Hu)
        as [[_ ->]|(s & _ & _ & ->)]; [apply IH; lia |].
      simpl. apply reset_all_Forall; [by apply bucket_ok_new | apply IH; lia]. }
    simpl. apply Forall_insert.
    + eapply Forall_impl; [exact H1 |]. intros b'. apply bucket_ok_mono. lia.
    + apply bucket_ok_add; [lia |].
      by apply (proj1 (Forall_lookup _ _) H1 _ _ Hb).
  - pose proof (reach_wf _ _ _ _ Hr) as Hwf.
    rewrite (Reduce_read_only_inv _ _ _ _ _ _ Hwf Hro HR). by apply IH.
Qed.

Lemma buckets_ok_witness :
  Forall (fun b => 0 <= Count b <= 4 /\ (Count b = 0 -> Sum b = 0%float))
    (buckets (win busy3)).
Proof.
  apply (buckets_ok 0 350 4 busy3); [exact busy3_reach | done].
Defined.

Lemma wrap64_add_l a b : I64.wrap64 (I64.wrap64 a + b) = I64.wrap64 (a + b).
Proof.
  unfold I64.wrap64. f_equal.
  replace ((a + 2 ^ 63) mod 2 ^ 64 - 2 ^ 63 + b + 2 ^ 63)
    with ((a + 2 ^ 63) mod 2 ^ 64 + b) by lia.
  rewrite Z.add_mod_idemp_l by lia. f_equal. lia.
Qed.

Lemma after_adds_step n :
  Add (after_adds n) 0 0 1 = Ok (after_adds (S n)).
Proof.
  unfold Add. rewrite updateOffset_rest by reflexivity. rewrite bind_Ok.
  change (offset (after_adds n)) with 0.
  destruct (window_add_Ok (win (after_adds n)) 0 1) as (b & Hb & ->);
    [done | done |].
  assert (Hb' : Some {| Sum := Nat.iter n (fun f => (f + 1)%float) 0%float;
                        Count := I64.wrap64 (Z.of_nat n) |} = Some b)
    by exact Hb.
  injection Hb' as <-. rewrite bind_Ok.
  unfold after_adds, set_win, set_bucket, Bucket_add.
  cbn [buckets win Sum Count w_size size interval offset ignoreCurrent
       lastTime]. change (Z.to_nat 0) with 0%nat.
  cbn [insert list_insert]. unfold I64.add. rewrite wrap64_add_l.
  rewrite Nat2Z.inj_succ. unfold Z.succ. reflexivity.
Qed.

Lemma after_adds_reach n : reach 0 0 (Z.of_nat n) (after_adds n).
Proof.
  induction n as [|n IH]; [exact fresh3_reach |].
  rewrite Nat2Z.inj_succ. unfold Z.succ.
  apply (reach_Add 0 0 (Z.of_nat n) (after_adds n) 0 0 1%float);
    [exact IH | lia | done | apply after_adds_step].
Qed.

(** C10 (as stated) fails once a bucket has received [2^63] additions:
    after that many calls of [Add(1)] on [fresh3] with the clock at 0 the
    count of slot 0 has wrapped around to [-2^63]. *)
Lemma count_wraps_counterexample :
  exists rw b,
    reach 0 0 (2 ^ 63) rw /\ buckets (win rw) !! 0%nat = Some b /\
    Count b = - 2 ^ 63 /\ ~ 0 <= Count b.
Proof.
  assert (H : exists N, Z.of_nat N = 2 ^ 63)
    by (exists (Z.to_nat (2 ^ 63)); apply Z2Nat.id; lia).
  destruct H as [N HN].
  exists (after_adds N). eexists. rewrite <- HN at 1.
  split; [apply after_adds_reach |]. split; [reflexivity |].
  cbn [Count]. rewrite HN. split; [reflexivity | ].
  change (I64.wrap64 (2 ^ 63)) with (- 2 ^ 63). lia.
Qed.

(** ** Failure modes *)








(** ** Reading right after a write *)

Lemma span_floor_Ok rw now :
  0 <= lastTime rw <= now -> now <= I64.max_int -> 0 < interval rw ->
  span rw now =
  Ok (if (now - lastTime rw) / interval rw <? size rw
      then (now - lastTime rw) / interval rw else size rw).
Proof.
  intros Hl Hn Hi. rewrite span_Ok by lia. f_equal.
  by apply span_value_floor.
Qed.

(** [span] reads only the size, the interval and lastTime. *)
Lemma span_ext rw rw' now :
  size rw' = size rw -> interval rw' = interval rw ->
  lastTime rw' = lastTime rw -> span rw' now = span rw now.
Proof. intros Hs Hi Hl. unfold span. by rewrite Hs, Hi, Hl. Qed.

Lemma rem_bounds a b :
  0 <= a -> b <> 0 -> 0 <= Z.rem a b <= a /\ Z.rem a b < Z.abs b.
Proof.
  intros Ha Hb. rewrite <- Z.rem_abs_r by done.
  rewrite Z.rem_mod_nonneg by lia.
  pose proof (Z.mod_pos_bound a (Z.abs b)). pose proof (Z.mod_le a (Z.abs b)).
  lia.
Qed.

Lemma slid_lastTime_rem rw s t2 :
  0 <= lastTime rw <= t2 -> t2 <= I64.max_int -> interval rw <> 0 ->
  lastTime (slid rw s t2) = t2 - Z.rem (t2 - lastTime rw) (interval rw).
Proof.
  intros Hl Ht Hi. simpl.
  pose proof (rem_bounds (t2 - lastTime rw) (interval rw)).
  unfold I64.max_int in Ht.
  rewrite (I64Facts.sub_id t2 (lastTime rw))
    by (unfold I64.in_range, I64.min_int, I64.max_int; lia).
  apply I64Facts.sub_id.
  unfold I64.in_range, I64.min_int, I64.max_int; lia.
Qed.

(** [lastTime] never passes the clock, whatever the sign of the interval. *)
Lemma reach_lastTime_bounds t0 t k rw :
  reach t0 t k rw -> interval rw <> 0 -> t0 <= lastTime rw <= t.
Proof.
  induction 1 as [heap n iv opts rw Ht0 Ho Hn | t k rw t1 t2 v rw' Hr IH Ht Hm HA
                 | A t k rw t1 fn a rw' a' Hr IH Ht Hro HR]; intros Hi.
  - destruct (NewRollingWindow_wf _ _ _ _ _ Ho Hn) as (_ & _ & _ & -> & _).
    lia.
  - pose proof (reach_wf _ _ _ _ Hr) as Hwf.
    pose proof (reach_clock _ _ _ _ Hr) as Hc.
    destruct (Add_inv _ _ _ _ _ Hwf HA) as (rw1 & b & Hu & _ & ->).
    simpl in *.
    destruct (updateOffset_inv _ _ _ _ Hwf Hu) as [[_ ->]|(s & _ & _ & ->)].
    + specialize (IH Hi). lia.
    + simpl in Hi. specialize (IH Hi).
      rewrite slid_lastTime_rem by lia.
      pose proof (rem_bounds (t2 - lastTime rw) (interval rw)). lia.
  - pose proof (reach_wf _ _ _ _ Hr) as Hwf.
    rewrite (Reduce_read_only_inv _ _ _ _ _ _ Hwf Hro HR) in *.
    specialize (IH Hi). lia.
Qed.

Lemma span_after_Add t0 t k rw now v rw' :
  reach t0 t k rw -> interval rw <> 0 -> t <= now <= I64.max_int ->
  Add rw now now v = Ok rw' -> span rw' now = Ok 0.
Proof.
  intros Hr Hi Hn HA. pose proof (reach_wf _ _ _ _ Hr) as Hwf.
  pose proof (reach_clock _ _ _ _ Hr) as Hc.
  pose proof (reach_lastTime_bounds _ _ _ _ Hr Hi) as Hl.
  destruct (Add_inv _ _ _ _ _ Hwf HA) as (rw1 & b & Hu & _ & ->).
  rewrite (span_ext rw1) by done.
  destruct (updateOffset_inv _ _ _ _ Hwf Hu) as [[H0 ->]|(s & _ & _ & ->)];
    [done |].
  pose proof (slid_lastTime_rem rw s now) as E.
  pose proof (rem_bounds (now - lastTime rw) (interval rw)) as Hb.
  rewrite span_Ok by done. f_equal. unfold span_value. cbv zeta.
  rewrite E by lia. simpl interval. simpl size.
  unfold I64.max_int in Hn.
  rewrite I64Facts.sub_id
    by (unfold I64.in_range, I64.min_int, I64.max_int; lia).
  replace (now - (now - Z.rem (now - lastTime rw) (interval rw)))
    with (Z.rem (now - lastTime rw) (interval rw)) by lia.
  rewrite (proj2 (Z.quot_small_iff _ _ Hi)) by lia.
  destruct Hwf as [Hsz _ _ _].
  change (I64.wrap64 0) with 0. simpl.
  destruct (Z.ltb_spec 0 (size rw)); [done | lia].
Qed.

Lemma offset_not_next rw n :
  wf rw -> n <= size rw - 1 -> offset rw ∉ reduce_slots rw 0 n.
Proof.
  intros [Hsz _ _ Hoff] Hn (i & E & Hi%elem_of_seqZ)%list_elem_of_fmap.
  rewrite Z.add_mod_idemp_l in E by lia.
  rewrite <- (Z.mod_small (offset rw) (size rw)) in E at 1 by lia.
  replace (offset rw) with (offset rw + 0) in E at 1 by lia.
  replace (offset rw + 0 + 1 + i) with (offset rw + (1 + i)) in E by lia.
  apply ring_inj in E; lia.
Qed.

(** C6: in every state reached with the ignoreCurrent option set and an
    interval other than zero, a call of [Add] followed by [Reduce] at the same
    clock reading calls the visitor on exactly [size - 1] distinct slots,
    those after the active one in ring order, and the active slot
    [offset], which [Add] has just written, is not one of them. *)
Theorem ignoreCurrent_skips_active t0 t k rw now v :
  reach t0 t k rw -> ignoreCurrent rw = true -> interval rw <> 0 ->
  t <= now <= I64.max_int ->
  exists rw',
    Add rw now now v = Ok rw' /\
    let slots := reduce_slots rw' 0 (size rw' - 1) in
    (forall (A : Type) (fn : visitor A) a,
       Reduce rw' now fn a =
       Ok (let '(w, a') := visit_all fn (win rw') a slots in
           (set_win rw' w, a'))) /\
    Z.of_nat (length slots) = size rw' - 1 /\
    NoDup slots /\
    (offset rw' ∉ slots) /\
    exists l, visited rw' now = Ok l /\ Z.of_nat (length l) = size rw' - 1.
Proof.
  intros Hr Hic Hi Hn. pose proof (reach_wf _ _ _ _ Hr) as Hwf.
  destruct (Add_Ok rw now now v Hwf) as [rw' HA]; [done |].
  exists rw'. split; [done |].
  pose proof (span_after_Add _ _ _ _ _ _ _ Hr Hi Hn HA) as Hspan.
  destruct (Add_wf _ _ _ _ _ Hwf HA) as (Hwf' & Hs & _ & Hic').
  rewrite Hic in Hic'.
  assert (Hd : reduce_diff rw' 0 = size rw' - 1)
    by (unfold reduce_diff; by rewrite Hic').
  pose proof Hwf' as [Hsz _ Hlen _].
  intros slots. split; [| split; [| split; [| split]]].
  - intros A fn a. rewrite (Reduce_eq fn rw' now 0) by done. by rewrite Hd.
  - unfold slots. rewrite reduce_slots_length. lia.
  - apply reduce_slots_NoDup; [done | lia].
  - apply offset_not_next; [done | lia].
  - destruct (visit_all_collect (win rw') [] slots) as (l & E & Hl).
    { apply Forall_forall. intros j Hj. rewrite Hlen.
      by apply (reduce_slots_range rw' 0 (size rw' - 1) j Hwf'). }
    exists l. split.
    + unfold visited. rewrite (Reduce_eq collect rw' now 0) by done.
      rewrite Hd. fold slots. by rewrite E.
    + rewrite <- (Forall2_length _ _ _ Hl). unfold slots.
      rewrite reduce_slots_length. lia.
Qed.

Lemma fresh3_ignoring_reach : reach 0 0 0 fresh3_ignoring.
Proof.
  apply (reach_New 0 3 3 100 [IgnoreCurrentBucket]);
    [done | by repeat constructor | reflexivity].
Qed.

Lemma ignoreCurrent_skips_active_witness :
  exists rw',
    Add fresh3_ignoring 0 0 1 = Ok rw' /\
    let slots := reduce_slots rw' 0 (size rw' - 1) in
    (forall (A : Type) (fn : visitor A) a,
       Reduce rw' 0 fn a =
       Ok (let '(w, a') := visit_all fn (win rw') a slots in
           (set_win rw' w, a'))) /\
    Z.of_nat (length slots) = size rw' - 1 /\
    NoDup slots /\
    (offset rw' ∉ slots) /\
    exists l, visited rw' 0 = Ok l /\ Z.of_nat (length l) = size rw' - 1.
Proof.
  apply (ignoreCurrent_skips_active 0 0 0 fresh3_ignoring 0 1);
    [exact fresh3_ignoring_reach | reflexivity | done | done].
Defined.

Example ignoring_example :
  (rw ← Add fresh3_ignoring 0 0 1; visited rw 0)
  = Ok [new_Bucket; new_Bucket].
Proof. vm_compute. reflexivity. Qed.

(** ** The two scenarios of the specification *)

Lemma NewRollingWindow_eq {heap} n iv t0 opts :
  1 <= n <= maxLen -> n <= heap -> public_options opts ->
  NewRollingWindow heap n iv t0 opts =
  Ok {| size := n;
        win := {| buckets := replicate (Z.to_nat n) new_Bucket;
                  w_size := n |};
        interval := iv; offset := 0;
        ignoreCurrent := bool_decide (opts <> []); lastTime := t0 |}.
Proof.
  intros Hn Hh Ho. rewrite NewRollingWindow_Ok by done. f_equal.
  match goal with |- context [fold_left ?f opts ?r] =>
    destruct (fold_options opts r Ho) as (Es & Ew & Ei & Eo & El & Eg);
    destruct (fold_left f opts r) end.
  simpl in *. by subst.
Qed.

(** C4: a window of size 3 and interval 100ms that has received one [Add]
    is read at least 350ms after the last clock reading of that [Add]:
    [Reduce] calls the visitor on no bucket, so every bucket it reports
    (there is none) has count 0, and the original count of 1 is not
    reported. *)
Theorem expired_window_reports_nothing heap t0 t1 t2 now opts v rw0 rw1 :
  0 <= t0 <= t1 -> t1 <= t2 -> public_options opts ->
  NewRollingWindow heap 3 (100 * Millisecond) t0 opts = Ok rw0 ->
  Add rw0 t1 t2 v = Ok rw1 ->
  t2 + 350 * Millisecond <= now <= I64.max_int ->
  visited rw1 now = Ok [] /\
  (forall l, visited rw1 now = Ok l -> Forall (fun b => Count b = 0) l) /\
  (forall (A : Type) (fn : visitor A) a, Reduce rw1 now fn a = Ok (rw1, a)).
Proof.
  intros Ht0 Ht1 Ho Hn HA Hnow. unfold Millisecond in *.
  assert (Hr0 : reach t0 t0 0 rw0)
    by (apply (reach_New t0 heap 3 (100 * 1000000) opts);
        [lia | done | done]).
  assert (Hr1 : reach t0 t2 (0 + 1) rw1)
    by (apply (reach_Add t0 t0 0 rw0 t1 t2 v); [done | lia | lia | done]).
  pose proof (reach_wf _ _ _ _ Hr1) as Hwf.
  destruct (NewRollingWindow_wf _ _ _ _ _ Ho Hn) as (Hwf0 & Hs & Hi & _).
  destruct (Add_wf _ _ _ _ _ Hwf0 HA) as (_ & Hs1 & Hi1 & _).
  rewrite Hs in Hs1. rewrite Hi in Hi1.
  destruct (reach_lastTime _ _ _ _ Hr1) as [Hl _]; [lia |].
  assert (Hspan : span rw1 now = Ok 3).
  { rewrite span_floor_Ok by lia. rewrite Hs1, Hi1.
    assert (3 <= (now - lastTime rw1) / (100 * 1000000))
      by (apply Z.div_le_lower_bound; lia).
    destruct (Z.ltb_spec ((now - lastTime rw1) / (100 * 1000000)) 3);
      [lia | done]. }
  assert (Hd : reduce_diff rw1 3 <= 0)
    by (unfold reduce_diff; simpl; lia).
  assert (Hv : visited rw1 now = Ok [])
    by (by apply (visited_nothing rw1 now 3)).
  split; [done |]. split.
  - intros l Hl'. rewrite Hv in Hl'. injection Hl' as <-. constructor.
  - intros A fn a. by apply (Reduce_nothing fn rw1 now 3).
Qed.

Lemma expired_window_reports_nothing_witness :
  exists rw0 rw1,
    NewRollingWindow 3 3 (100 * Millisecond) 0 [] = Ok rw0 /\
    Add rw0 0 0 1 = Ok rw1 /\
    buckets (win rw1) = [mkBucket 1 1; new_Bucket; new_Bucket] /\
    visited rw1 (350 * Millisecond) = Ok [].
Proof.
  eexists. eexists. split; [reflexivity |]. split; [reflexivity |].
  split; [reflexivity |].
  eapply (expired_window_reports_nothing 3 0 0 0 (350 * Millisecond) [] 1);
    [done | done | constructor | reflexivity | reflexivity | done].
Defined.

Lemma Add_first5 t0 ic v :
  0 <= t0 <= I64.max_int -> Add (built5 t0 ic) t0 t0 v = Ok (first5 t0 ic v).
Proof.
  intros Ht. unfold Add. rewrite updateOffset_rest; [reflexivity |].
  rewrite span_floor_Ok by (simpl; unfold Second; lia).
  simpl. by rewrite Z.sub_diag.
Qed.

Lemma first5_wf t0 ic v : wf (first5 t0 ic v).
Proof. by split. Qed.

Lemma second5_wf t0 ic v v' : wf (second5 t0 ic v v').
Proof. by split. Qed.

Lemma span_first5 t0 ic v :
  0 <= t0 -> t0 + Second <= I64.max_int ->
  span (first5 t0 ic v) (t0 + Second) = Ok 1.
Proof.
  intros Ht Hm. rewrite span_floor_Ok by (simpl; unfold Second in *; lia).
  simpl. replace (t0 + Second - t0) with Second by lia. reflexivity.
Qed.

Lemma Add_second5 t0 ic v v' :
  0 <= t0 -> t0 + Second <= I64.max_int ->
  Add (first5 t0 ic v) (t0 + Second) (t0 + Second) v'
  = Ok (second5 t0 ic v v').
Proof.
  intros Ht Hm. unfold Add.
  rewrite (updateOffset_slide _ _ _ 1)
    by (apply first5_wf || (by apply span_first5) || lia).
  assert (E : slid (first5 t0 ic v) 1 (t0 + Second) =
              {| size := 5; win := win (first5 t0 ic v);
                 interval := Second; offset := 1; ignoreCurrent := ic;
                 lastTime := t0 + Second |}).
  { pose proof (slid_lastTime (first5 t0 ic v) 1 (t0 + Second)) as El.
    unfold slid in *. f_equal.
    etransitivity; [apply El; simpl; unfold Second in *; lia |].
    simpl. replace (t0 + Second - t0) with Second by lia.
    rewrite Z_mod_same_full. lia. }
  rewrite E. reflexivity.
Qed.

Lemma span_second5 t0 ic v v' :
  0 <= t0 -> t0 + Second <= I64.max_int ->
  span (second5 t0 ic v v') (t0 + Second) = Ok 0.
Proof.
  intros Ht Hm. rewrite span_floor_Ok by (simpl; unfold Second in *; lia).
  simpl. by rewrite Z.sub_diag.
Qed.

(** C5: a window of size 5 and interval 1s receives [Add(v)] at the clock
    reading [t0] of its construction and [Add(v')] exactly one interval
    later.  The slide of the second [Add] has span 1 and resets slot 1
    only; slot 0, active before, still holds the first value; and
    [Reduce] at [t0 + 1s] calls the visitor on that bucket. *)
Theorem slide_keeps_previous_bucket heap t0 opts v v' :
  5 <= heap ->
  0 <= t0 -> t0 + Second <= I64.max_int -> public_options opts ->
  exists rw0 rw1 rw2 l,
    NewRollingWindow heap 5 Second t0 opts = Ok rw0 /\
    Add rw0 t0 t0 v = Ok rw1 /\
    offset rw1 = 0 /\
    span rw1 (t0 + Second) = Ok 1 /\
    reset_slots rw1 1 = [1] /\
    Add rw1 (t0 + Second) (t0 + Second) v' = Ok rw2 /\
    offset rw2 = 1 /\
    buckets (win rw2) !! 0%nat = Some {| Sum := 0 + v; Count := 1 |} /\
    visited rw2 (t0 + Second) = Ok l /\
    {| Sum := 0 + v; Count := 1 |} ∈ l.
Proof.
  intros Hh Ht Hm Ho. set (ic := bool_decide (opts <> [])).
  exists (built5 t0 ic), (first5 t0 ic v), (second5 t0 ic v v').
  exists (if ic
          then [new_Bucket; new_Bucket; new_Bucket;
                {| Sum := 0 + v; Count := 1 |}]
          else [new_Bucket; new_Bucket; new_Bucket;
                {| Sum := 0 + v; Count := 1 |};
                {| Sum := 0 + v'; Count := 1 |}]).
  split; [by apply NewRollingWindow_eq |].
  split; [apply Add_first5; unfold Second in *; lia |].
  split; [done |].
  split; [by apply span_first5 |].
  split; [reflexivity |].
  split; [by apply Add_second5 |].
  split; [done |]. split; [done |]. split.
  - unfold visited.
    rewrite (Reduce_eq collect _ _ 0)
      by (apply second5_wf || by apply span_second5).
    by destruct ic.
  - destruct ic; rewrite !elem_of_cons; tauto.
Qed.

Lemma slide_keeps_previous_bucket_witness :
  exists rw0 rw1 rw2 l,
    NewRollingWindow 5 5 Second 0 [] = Ok rw0 /\
    Add rw0 0 0 7 = Ok rw1 /\
    offset rw1 = 0 /\
    span rw1 (0 + Second) = Ok 1 /\
    reset_slots rw1 1 = [1] /\
    Add rw1 (0 + Second) (0 + Second) 9 = Ok rw2 /\
    offset rw2 = 1 /\
    buckets (win rw2) !! 0%nat = Some {| Sum := 0 + 7; Count := 1 |} /\
    visited rw2 (0 + Second) = Ok l /\
    {| Sum := 0 + 7; Count := 1 |} ∈ l.
Proof.
  apply (slide_keeps_previous_bucket 5 0 [] 7 9);
    [done | done | done | constructor].
Defined.

Example slide_example :
  (rw ← NewRollingWindow 5 5 Second 0 [];
   rw ← Add rw 0 0 7;
   rw ← Add rw Second Second 9;
   visited rw Second)
  = Ok [new_Bucket; new_Bucket; new_Bucket; mkBucket 7 1; mkBucket 9 1].
Proof. vm_compute. reflexivity. Qed.

(** * Further properties of the rolling window *)

(** ** What Reduce reports *)

Lemma Forall2_bucket_at w js l :
  Forall2 (fun j b => buckets w !! Z.to_nat j = Some b) js l ->
  l = bucket_at w <$> js.
Proof.
  induction 1 as [|j b js l Hj _ IH]; [done |].
  simpl. unfold bucket_at at 1. rewrite Hj. simpl. by f_equal.
Qed.

Lemma visited_eq rw now s :
  wf rw -> span rw now = Ok s ->
  visited rw now =
  Ok (bucket_at (win rw) <$> reduce_slots rw s (reduce_diff rw s)).
Proof.
  intros Hwf Hspan.
  destruct (visit_all_collect (win rw) []
              (reduce_slots rw s (reduce_diff rw s))) as (l & E & Hl).
  { apply Forall_forall. intros j Hj. pose proof Hwf as [_ _ Hlen _].
    rewrite Hlen. by apply (reduce_slots_range rw s (reduce_diff rw s) j). }
  unfold visited. rewrite (Reduce_eq collect rw now s) by done.
  rewrite E. simpl. by rewrite (Forall2_bucket_at _ _ _ Hl).
Qed.

Lemma reduce_slot_shift rw s i :
  wf rw ->
  ((offset rw + s + 1) mod size rw + i) mod size rw
  = (offset rw + (s + 1 + i)) mod size rw.
Proof.
  intros [Hsz _ _ _]. rewrite Z.add_mod_idemp_l by lia. f_equal. lia.
Qed.

(** The last of the slots read is the active one. *)
Lemma reduce_slots_last rw s :
  wf rw -> 0 <= s < size rw ->
  reduce_slots rw s (size rw - s)
  = reduce_slots rw s (size rw - s - 1) ++ [offset rw].
Proof.
  intros Hwf Hs. pose proof Hwf as [Hsz _ _ Hoff]. unfold reduce_slots.
  replace (size rw - s) with (size rw - s - 1 + 1) at 1 by lia.
  rewrite seqZ_app by lia. rewrite fmap_app. f_equal.
  change (seqZ (0 + (size rw - s - 1)) 1) with [0 + (size rw - s - 1)].
  simpl. f_equal. rewrite reduce_slot_shift by done.
  replace (offset rw + (s + 1 + (0 + (size rw - s - 1))))
    with (offset rw + 1 * size rw) by lia.
  rewrite Z_mod_plus_full. apply Z.mod_small. lia.
Qed.

(** The slots read before the last one are not the active one. *)
Lemma reduce_slots_init rw s j :
  wf rw -> 0 <= s < size rw ->
  j ∈ reduce_slots rw s (size rw - s - 1) -> j <> offset rw.
Proof.
  intros Hwf Hs (i & -> & Hi%elem_of_seqZ)%list_elem_of_fmap E.
  pose proof Hwf as [Hsz _ _ Hoff].
  rewrite reduce_slot_shift in E by done.
  rewrite <- (Z.mod_small (offset rw) (size rw)) in E at 2 by lia.
  replace (offset rw) with (offset rw + 0) in E at 2 by lia.
  apply ring_inj in E; lia.
Qed.

Lemma fmap_const_replicate {A B} (f : A -> B) (c : B) (l : list A) :
  (forall x, x ∈ l -> f x = c) -> f <$> l = replicate (length l) c.
Proof.
  induction l as [|x l IH]; intros H; [done |].
  simpl. rewrite H by left. f_equal. apply IH. intros y Hy. apply H. by right.
Qed.

Lemma bucket_at_replicate k w j :
  buckets w = replicate k new_Bucket -> bucket_at w j = new_Bucket.
Proof.
  intros E. unfold bucket_at. rewrite E.
  destruct (replicate k new_Bucket !! Z.to_nat j) as [b|] eqn:Hb; [| done].
  by apply lookup_replicate_1 in Hb as [-> _].
Qed.

Lemma bucket_at_set_ne w i j b :
  0 <= i -> 0 <= j -> i <> j ->
  bucket_at (set_bucket w i b) j = bucket_at w j.
Proof.
  intros Hi Hj Hne. unfold bucket_at, set_bucket. simpl.
  by rewrite list_lookup_insert_ne by lia.
Qed.

Lemma bucket_at_set_eq w i b :
  0 <= i < Z.of_nat (length (buckets w)) ->
  bucket_at (set_bucket w i b) i = b.
Proof.
  intros Hi. unfold bucket_at, set_bucket. simpl.
  by rewrite list_lookup_insert_eq by lia.
Qed.

(** X1: right after construction, while less than one interval has passed on
    the clock, [Reduce] reports only zero buckets: [size] of them, or
    [size - 1] when the ignoreCurrent option was passed. *)
Theorem fresh_window_reads_zeros heap n iv t0 now opts rw :
  public_options opts -> NewRollingWindow heap n iv t0 opts = Ok rw ->
  0 < iv -> 0 <= t0 <= now -> now - t0 < iv -> now <= I64.max_int ->
  ignoreCurrent rw = bool_decide (opts <> []) /\
  visited rw now =
  Ok (replicate (Z.to_nat (if ignoreCurrent rw then n - 1 else n))
        new_Bucket).
Proof.
  intros Ho Hn Hiv Ht Hd Hm.
  destruct (NewRollingWindow_wf _ _ _ _ _ Ho Hn)
    as (Hwf & Hs & Hi & Hl & Hoff & Hic & Hb).
  split; [done |].
  assert (Hspan : span rw now = Ok 0).
  { rewrite span_floor_Ok by (rewrite ?Hl, ?Hi; lia).
    rewrite Hl, Hi, Hs, Z.div_small by lia.
    destruct Hwf as [Hsz _ _ _]. rewrite Hs in Hsz.
    by destruct (Z.ltb_spec 0 n); [| lia]. }
  rewrite (visited_eq rw now 0) by done. f_equal.
  rewrite (fmap_const_replicate _ new_Bucket)
    by (intros j _; by apply (bucket_at_replicate (Z.to_nat n))).
  rewrite reduce_slots_length. unfold reduce_diff. simpl. rewrite Hs.
  destruct (ignoreCurrent rw); [done |]. by rewrite Z.sub_0_r.
Qed.

Lemma fresh_window_reads_zeros_witness :
  visited fresh3 50 = Ok [new_Bucket; new_Bucket; new_Bucket] /\
  visited fresh3_ignoring 50 = Ok [new_Bucket; new_Bucket].
Proof.
  split.
  - apply (fresh_window_reads_zeros 3 3 100 0 50 [] fresh3);
      [constructor | reflexivity | lia | lia | lia | done].
  - apply (fresh_window_reads_zeros 3 3 100 0 50 [IgnoreCurrentBucket]
             fresh3_ignoring);
      [by repeat constructor | reflexivity | lia | lia | lia | done].
Defined.

(** X2: whenever fewer than [size] intervals have expired and the active
    bucket is not being ignored, the last bucket [Reduce] reports is the
    active one (slot [offset]), after the [size - span - 1] older slots
    that follow it in the ring, none of which is the active slot. *)
Theorem Reduce_newest_last rw now s :
  wf rw -> span rw now = Ok s -> s < size rw ->
  ignoreCurrent rw = false \/ 0 < s ->
  visited rw now =
    Ok ((bucket_at (win rw) <$> reduce_slots rw s (size rw - s - 1))
        ++ [bucket_at (win rw) (offset rw)]) /\
  Z.of_nat (length (reduce_slots rw s (size rw - s - 1))) = size rw - s - 1 /\
  offset rw ∉ reduce_slots rw s (size rw - s - 1).
Proof.
  intros Hwf Hspan Hs Hic. pose proof (span_bounds _ _ _ Hwf Hspan) as Hb.
  assert (Hd : reduce_diff rw s = size rw - s).
  { unfold reduce_diff. destruct Hic as [-> | H0]; [by rewrite andb_false_r |].
    by destruct (Z.eqb_spec s 0); [lia |]. }
  split; [| split].
  - rewrite (visited_eq rw now s), Hd by done.
    rewrite reduce_slots_last by (done || lia). by rewrite fmap_app.
  - rewrite reduce_slots_length. lia.
  - intros Hin. by apply (reduce_slots_init rw s (offset rw) Hwf); [lia | |].
Qed.

Lemma Reduce_newest_last_witness :
  visited fresh3 150 =
    Ok ((bucket_at (win fresh3) <$> reduce_slots fresh3 1 (3 - 1 - 1))
        ++ [bucket_at (win fresh3) 0]).
Proof.
  apply (Reduce_newest_last fresh3 150 1);
    [exact fresh3_wf | reflexivity | done | by left].
Defined.

(** ** What Add writes *)

Lemma bucket_at_lookup w j :
  0 <= j < Z.of_nat (length (buckets w)) ->
  buckets w !! Z.to_nat j = Some (bucket_at w j).
Proof.
  intros Hj. unfold bucket_at.
  destruct (lookup_lt_is_Some_2 (buckets w) (Z.to_nat j)) as [b ->]; [lia |].
  done.
Qed.

Lemma Add_rest_eq rw t1 t2 v :
  wf rw -> span rw t1 = Ok 0 ->
  Add rw t1 t2 v =
  Ok (set_win rw
        (set_bucket (win rw) (offset rw)
           (Bucket_add v (bucket_at (win rw) (offset rw))))).
Proof.
  intros [Hsz Hws Hlen Hoff] Hspan. unfold Add.
  rewrite updateOffset_rest by done. rewrite bind_Ok.
  destruct (window_add_Ok (win rw) (offset rw) v) as (b & Hb & ->);
    [lia | lia |].
  rewrite bucket_at_lookup in Hb by lia. by injection Hb as <-.
Qed.

Lemma new_offset_reset rw s :
  wf rw -> 0 < s -> (offset rw + s) mod size rw ∈ reset_slots rw s.
Proof.
  intros Hwf Hs. apply list_elem_of_fmap. exists (s - 1).
  split; [f_equal; lia | apply elem_of_seqZ; lia].
Qed.

Lemma slid_bucket_at rw s t2 j :
  wf rw -> 0 <= j < size rw ->
  bucket_at (win (slid rw s t2)) j =
  if decide (j ∈ reset_slots rw s) then new_Bucket
  else bucket_at (win rw) j.
Proof.
  intros Hwf Hj. unfold bucket_at. simpl.
  rewrite reset_all_lookup.
  - by destruct (decide _).
  - destruct Hwf. lia.
  - apply Forall_forall. intros k Hk.
    by apply (reset_slots_range rw s k Hwf).
Qed.

Lemma Add_slide_eq rw t1 t2 v s :
  wf rw -> span rw t1 = Ok s -> 0 < s ->
  Add rw t1 t2 v =
  Ok (set_win (slid rw s t2)
        (set_bucket (win (slid rw s t2)) ((offset rw + s) mod size rw)
           (Bucket_add v new_Bucket))).
Proof.
  intros Hwf Hspan Hs. unfold Add.
  rewrite (updateOffset_slide _ _ _ s) by done. rewrite bind_Ok.
  pose proof (slid_wf rw s t2 Hwf) as [Hsz Hws Hlen Hoff].
  destruct (window_add_Ok (win (slid rw s t2)) (offset (slid rw s t2)) v)
    as (b & Hb & ->); [lia | lia |].
  rewrite bucket_at_lookup in Hb by lia. injection Hb as <-.
  pose proof (Z.mod_pos_bound (offset rw + s) (size rw)) as Hm.
  pose proof Hwf as [Hsz0 _ _ _].
  pose proof (slid_bucket_at rw s t2 ((offset rw + s) mod size rw) Hwf) as E.
  rewrite decide_True in E by (by apply new_offset_reset).
  simpl in E. rewrite E by lia. done.
Qed.

(** X3: an [Add] that reads span 0 succeeds and touches the active bucket
    only: its sum grows by the value and its count by one, every other
    bucket, the offset and lastTime stay as they were. *)
Theorem Add_within_interval rw t1 t2 v :
  wf rw -> span rw t1 = Ok 0 ->
  exists rw',
    Add rw t1 t2 v = Ok rw' /\
    offset rw' = offset rw /\ lastTime rw' = lastTime rw /\
    bucket_at (win rw') (offset rw) =
      {| Sum := Sum (bucket_at (win rw) (offset rw)) + v;
         Count := I64.add (Count (bucket_at (win rw) (offset rw))) 1 |} /\
    (forall j, 0 <= j -> j <> offset rw ->
       bucket_at (win rw') j = bucket_at (win rw) j).
Proof.
  intros Hwf Hspan. eexists. split; [by apply Add_rest_eq |].
  destruct Hwf as [Hsz Hws Hlen Hoff]. simpl.
  split; [done |]. split; [done |]. split.
  - by rewrite bucket_at_set_eq by lia.
  - intros j Hj Hne. apply bucket_at_set_ne; lia.
Qed.

Lemma Add_within_interval_witness :
  exists rw',
    Add fresh3 50 50 2 = Ok rw' /\
    offset rw' = 0 /\ lastTime rw' = 0 /\
    bucket_at (win rw') 0 = {| Sum := 0 + 2; Count := 1 |} /\
    (forall j, 0 <= j -> j <> 0 ->
       bucket_at (win rw') j = bucket_at (win fresh3) j).
Proof.
  apply (Add_within_interval fresh3 50 50 2);
    [exact fresh3_wf | reflexivity].
Defined.

(** X4: an [Add] that reads a span [s > 0] succeeds, moves the offset to
    [(offset + s) mod size], and the value lands in a bucket that was just
    reset: the new active bucket holds exactly that one addition.  Every
    other slot passed over holds the zero bucket and the remaining slots
    keep their buckets. *)
Theorem Add_after_slide rw t1 t2 v s :
  wf rw -> span rw t1 = Ok s -> 0 < s ->
  exists rw',
    Add rw t1 t2 v = Ok rw' /\
    offset rw' = (offset rw + s) mod size rw /\
    bucket_at (win rw') (offset rw') = {| Sum := 0 + v; Count := 1 |} /\
    (forall j, 0 <= j < size rw -> j <> offset rw' ->
       bucket_at (win rw') j =
       if decide (j ∈ reset_slots rw s) then new_Bucket
       else bucket_at (win rw) j).
Proof.
  intros Hwf Hspan Hs. eexists. split; [by apply (Add_slide_eq _ _ _ _ s) |].
  pose proof (slid_wf rw s t2 Hwf) as [Hsz Hws Hlen Hoff].
  pose proof Hwf as [Hsz0 _ _ _].
  pose proof (Z.mod_pos_bound (offset rw + s) (size rw)).
  simpl in *. split; [done |]. split.
  - rewrite bucket_at_set_eq; [done |]. simpl. lia.
  - intros j Hj Hne. rewrite bucket_at_set_ne by lia.
    by apply (slid_bucket_at rw s t2 j).
Qed.

Lemma Add_after_slide_witness :
  exists rw',
    Add fresh3 250 250 2 = Ok rw' /\
    offset rw' = (offset fresh3 + 2) mod size fresh3 /\
    bucket_at (win rw') (offset rw') = {| Sum := 0 + 2; Count := 1 |} /\
    (forall j, 0 <= j < size fresh3 -> j <> offset rw' ->
       bucket_at (win rw') j =
       if decide (j ∈ reset_slots fresh3 2) then new_Bucket
       else bucket_at (win fresh3) j).
Proof.
  apply (Add_after_slide fresh3 250 250 2 2);
    [exact fresh3_wf | reflexivity | lia].
Defined.

Lemma reset_slots_full rw j :
  wf rw -> 0 <= j < size rw -> j ∈ reset_slots rw (size rw).
Proof.
  intros [Hsz _ _ Hoff] Hj. apply list_elem_of_fmap.
  exists ((j - offset rw - 1) mod size rw).
  pose proof (Z.mod_pos_bound (j - offset rw - 1) (size rw)).
  split; [| apply elem_of_seqZ; lia].
  replace (offset rw + (j - offset rw - 1) mod size rw + 1)
    with ((j - offset rw - 1) mod size rw + (offset rw + 1)) by lia.
  rewrite Z.add_mod_idemp_l by lia.
  replace (j - offset rw - 1 + (offset rw + 1)) with j by lia.
  symmetry. apply Z.mod_small. lia.
Qed.

Lemma slid_full_buckets rw t2 :
  wf rw ->
  buckets (win (slid rw (size rw) t2))
  = replicate (Z.to_nat (size rw)) new_Bucket.
Proof.
  intros Hwf. pose proof Hwf as [Hsz _ Hlen _].
  pose proof (slid_wf rw (size rw) t2 Hwf) as [_ _ Hlen' _].
  simpl in Hlen'. apply list_eq. intros i.
  destruct (decide (Z.of_nat i < size rw)) as [Hi|Hi].
  - rewrite lookup_replicate_2 by lia.
    pose proof (slid_bucket_at rw (size rw) t2 (Z.of_nat i) Hwf) as E.
    rewrite decide_True in E by (apply reset_slots_full; [done | lia]).
    rewrite <- E by lia.
    rewrite <- (Nat2Z.id i) at 1. apply bucket_at_lookup. simpl. lia.
  - rewrite (proj1 (lookup_replicate_None _ _ _)) by lia.
    apply lookup_ge_None. simpl. lia.
Qed.

(** X5: an [Add] that finds the whole window stale (span equal to [size])
    succeeds, leaves the offset where it was and clears the ring: afterwards
    the active bucket holds the one new addition and every other bucket is
    the zero bucket. *)
Theorem stale_window_cleared rw t1 t2 v :
  wf rw -> span rw t1 = Ok (size rw) ->
  exists rw',
    Add rw t1 t2 v = Ok rw' /\
    offset rw' = offset rw /\
    buckets (win rw') =
      <[Z.to_nat (offset rw) := {| Sum := 0 + v; Count := 1 |}]>
        (replicate (Z.to_nat (size rw)) new_Bucket).
Proof.
  intros Hwf Hspan. pose proof Hwf as [Hsz _ _ Hoff].
  assert (E : (offset rw + size rw) mod size rw = offset rw).
  { replace (offset rw + size rw) with (offset rw + 1 * size rw) by lia.
    rewrite Z_mod_plus_full. apply Z.mod_small. lia. }
  eexists. split; [apply (Add_slide_eq _ _ _ _ (size rw)); [done | done | lia] |].
  simpl. rewrite E. split; [done |].
  pose proof (slid_full_buckets rw t2 Hwf) as Hb. simpl in Hb.
  by rewrite Hb.
Qed.

Lemma stale_window_cleared_witness :
  exists rw',
    Add fresh3 1000 1000 2 = Ok rw' /\
    offset rw' = offset fresh3 /\
    buckets (win rw') =
      <[Z.to_nat (offset fresh3) := {| Sum := 0 + 2; Count := 1 |}]>
        (replicate (Z.to_nat (size fresh3)) new_Bucket).
Proof.
  apply (stale_window_cleared fresh3 1000 1000 2);
    [exact fresh3_wf | reflexivity].
Defined.

(** ** Sliding and the clock *)

Lemma span_after_slide rw s now :
  wf rw -> 0 <= lastTime rw <= now -> now <= I64.max_int ->
  interval rw <> 0 -> span (slid rw s now) now = Ok 0.
Proof.
  intros Hwf Hl Hn Hi.
  pose proof (slid_lastTime_rem rw s now Hl Hn Hi) as E.
  pose proof (rem_bounds (now - lastTime rw) (interval rw)) as Hb.
  rewrite span_Ok by done. f_equal. unfold span_value. cbv zeta.
  rewrite E. simpl interval. simpl size.
  unfold I64.max_int in Hn.
  rewrite I64Facts.sub_id
    by (unfold I64.in_range, I64.min_int, I64.max_int; lia).
  replace (now - (now - Z.rem (now - lastTime rw) (interval rw)))
    with (Z.rem (now - lastTime rw) (interval rw)) by lia.
  rewrite (proj2 (Z.quot_small_iff _ _ Hi)) by lia.
  destruct Hwf as [Hsz _ _ _].
  change (I64.wrap64 0) with 0. simpl.
  destruct (Z.ltb_spec 0 (size rw)); [done | lia].
Qed.

(** X6: sliding is idempotent at a fixed clock reading.  On a well-formed
    window whose lastTime is not ahead of the clock, [updateOffset]
    succeeds, the span read afterwards at the same reading is 0, and a
    second [updateOffset] at that reading changes nothing. *)
Theorem updateOffset_idempotent rw now :
  wf rw -> 0 <= lastTime rw <= now -> now <= I64.max_int ->
  interval rw <> 0 ->
  exists rw',
    updateOffset rw now now = Ok rw' /\
    span rw' now = Ok 0 /\
    updateOffset rw' now now = Ok rw'.
Proof.
  intros Hwf Hl Hn Hi.
  destruct (updateOffset_Ok rw now now Hwf Hi) as [rw' Hu].
  exists rw'. split; [done |].
  assert (Hspan : span rw' now = Ok 0).
  { destruct (updateOffset_inv _ _ _ _ Hwf Hu)
      as [[H0 ->]|(s & _ & _ & ->)]; [done |].
    by apply span_after_slide. }
  split; [done | by apply updateOffset_rest].
Qed.

Lemma updateOffset_idempotent_witness :
  exists rw',
    updateOffset fresh3 250 250 = Ok rw' /\
    span rw' 250 = Ok 0 /\
    updateOffset rw' 250 250 = Ok rw'.
Proof.
  apply (updateOffset_idempotent fresh3 250);
    [exact fresh3_wf | simpl; lia | done | done].
Defined.

(** X7: with a positive interval and a clock that has not run backwards,
    the span never decreases as the clock advances and always lies between
    0 and [size]. *)
Theorem span_monotone rw now1 now2 :
  0 <= size rw -> 0 < interval rw ->
  0 <= lastTime rw <= now1 -> now1 <= now2 -> now2 <= I64.max_int ->
  exists s1 s2,
    span rw now1 = Ok s1 /\ span rw now2 = Ok s2 /\
    0 <= s1 /\ s1 <= s2 /\ s2 <= size rw.
Proof.
  intros Hsz Hi Hl H12 Hm.
  do 2 eexists. split; [apply span_floor_Ok; lia |].
  split; [apply span_floor_Ok; lia |].
  assert (0 <= (now1 - lastTime rw) / interval rw)
    by (apply Z.div_pos; lia).
  assert ((now1 - lastTime rw) / interval rw
          <= (now2 - lastTime rw) / interval rw)
    by (apply Z.div_le_mono; lia).
  destruct (Z.ltb_spec ((now1 - lastTime rw) / interval rw) (size rw));
    destruct (Z.ltb_spec ((now2 - lastTime rw) / interval rw) (size rw));
    lia.
Qed.

Lemma span_monotone_witness :
  exists s1 s2,
    span fresh3 150 = Ok s1 /\ span fresh3 250 = Ok s2 /\
    0 <= s1 /\ s1 <= s2 /\ s2 <= size fresh3.
Proof.
  apply (span_monotone fresh3 150 250); simpl; (lia || done).
Defined.

(** X8: with a positive interval and a clock that has not run backwards,
    the span reaches [size] (the whole window counts as stale) exactly when
    at least [size] whole intervals have passed since lastTime. *)
Theorem span_full_iff rw now :
  0 <= size rw -> 0 < interval rw ->
  0 <= lastTime rw <= now -> now <= I64.max_int ->
  (span rw now = Ok (size rw) <->
   size rw * interval rw <= now - lastTime rw).
Proof.
  intros Hsz Hi Hl Hm. rewrite span_floor_Ok by lia.
  pose proof (Z.div_pos (now - lastTime rw) (interval rw)).
  destruct (Z.ltb_spec ((now - lastTime rw) / interval rw) (size rw))
    as [Hlt|Hge].
  - split.
    + intros E. injection E as E. lia.
    + intros H'. exfalso.
      assert (size rw <= (now - lastTime rw) / interval rw); [| lia].
      apply Z.div_le_lower_bound; lia.
  - split; [| done]. intros _.
    pose proof (Z.mul_div_le (now - lastTime rw) (interval rw) Hi). nia.
Qed.

Lemma span_full_iff_witness :
  span fresh3 300 = Ok (size fresh3) <->
  size fresh3 * interval fresh3 <= 300 - lastTime fresh3.
Proof.
  apply (span_full_iff fresh3 300); simpl; (lia || done).
Defined.

(** X9: when a slide reads a span [s] below [size] and both clock readings
    of [updateOffset] coincide, lastTime advances by exactly [s] intervals,
    in step with the offset.  In general (second reading not before the
    first) lastTime advances by at least [s] intervals and never passes the
    second reading. *)
Theorem slide_advances_lastTime rw t1 t2 s rw' :
  wf rw -> 0 < interval rw ->
  0 <= lastTime rw <= t1 -> t1 <= t2 -> t2 <= I64.max_int ->
  span rw t1 = Ok s -> 0 < s ->
  updateOffset rw t1 t2 = Ok rw' ->
  offset rw' = (offset rw + s) mod size rw /\
  lastTime rw + s * interval rw <= lastTime rw' <= t2 /\
  (t1 = t2 -> s < size rw -> lastTime rw' = lastTime rw + s * interval rw).
Proof.
  intros Hwf Hi Hl H12 Hm Hspan Hs Hu.
  rewrite (updateOffset_slide _ _ _ s) in Hu by done. injection Hu as <-.
  split; [done |]. rewrite slid_lastTime by lia.
  rewrite span_floor_Ok in Hspan by lia.
  pose proof (Z.div_mod (t2 - lastTime rw) (interval rw)).
  pose proof (Z.mod_pos_bound (t2 - lastTime rw) (interval rw) Hi).
  assert ((t1 - lastTime rw) / interval rw
          <= (t2 - lastTime rw) / interval rw)
    by (apply Z.div_le_mono; lia).
  destruct (Z.ltb_spec ((t1 - lastTime rw) / interval rw) (size rw));
    injection Hspan as Hspan.
  - split; [nia |]. intros -> _. nia.
  - split; [nia |]. intros _ ?. lia.
Qed.

Lemma slide_advances_lastTime_witness :
  exists rw',
    updateOffset fresh3 250 250 = Ok rw' /\
    offset rw' = (offset fresh3 + 2) mod size fresh3 /\
    lastTime fresh3 + 2 * interval fresh3 <= lastTime rw' <= 250 /\
    (250 = 250 -> 2 < size fresh3 ->
     lastTime rw' = lastTime fresh3 + 2 * interval fresh3).
Proof.
  eexists. split; [reflexivity |].
  apply (slide_advances_lastTime fresh3 250 250 2);
    [exact fresh3_wf | simpl; lia | simpl; lia | lia | done
    | reflexivity | lia | reflexivity].
Defined.

(** ** Construction, one write, one read *)

(** X10: a window is built, receives one [Add(v)] at the clock reading of
    its construction and is read before one interval has passed.  [Reduce]
    then reports [size - 1] zero buckets followed by the bucket holding the
    one addition (sum [0 + v], count 1); with the ignoreCurrent option it
    reports the [size - 1] zero buckets only. *)
Theorem single_add_visible heap n iv t0 now opts v rw0 :
  public_options opts -> NewRollingWindow heap n iv t0 opts = Ok rw0 ->
  0 < iv -> 0 <= t0 <= now -> now - t0 < iv -> now <= I64.max_int ->
  exists rw1,
    Add rw0 t0 t0 v = Ok rw1 /\
    visited rw1 now =
    Ok (replicate (Z.to_nat (n - 1)) new_Bucket ++
        (if ignoreCurrent rw0 then []
         else [ {| Sum := 0 + v; Count := 1 |} ])).
Proof.
  intros Ho Hn Hiv Ht Hd Hm.
  destruct (NewRollingWindow_wf _ _ _ _ _ Ho Hn)
    as (Hwf & Hs & Hi & Hl & Hoff & _ & Hb).
  pose proof Hwf as [Hsz _ Hlen _]. rewrite Hs in Hsz.
  assert (Hq : forall t, t0 <= t -> t - t0 < iv -> t <= I64.max_int ->
                         span rw0 t = Ok 0).
  { intros t ? ? ?. rewrite span_floor_Ok by (rewrite ?Hl, ?Hi; lia).
    rewrite Hl, Hi, Hs, Z.div_small by lia.
    by destruct (Z.ltb_spec 0 n); [| lia]. }
  eexists. split; [apply Add_rest_eq; [done | apply Hq; lia] |].
  set (rw1 := set_win rw0 _).
  assert (Hwf1 : wf rw1).
  { destruct Hwf. split; simpl; try done. by rewrite length_insert. }
  assert (Hspan : span rw1 now = Ok 0)
    by (rewrite (span_ext rw0) by done; apply Hq; lia).
  assert (Hold : forall j, 0 <= j -> j <> offset rw1 ->
                           bucket_at (win rw1) j = new_Bucket).
  { intros j Hj Hne. unfold rw1. simpl in *.
    rewrite bucket_at_set_ne by lia.
    by apply (bucket_at_replicate (Z.to_nat n)). }
  assert (Hinit : bucket_at (win rw1)
                    <$> reduce_slots rw1 0 (size rw1 - 0 - 1)
                  = replicate (Z.to_nat (n - 1)) new_Bucket).
  { rewrite (fmap_const_replicate _ new_Bucket).
    - rewrite reduce_slots_length. simpl. rewrite Hs. f_equal. lia.
    - intros j Hj. apply Hold.
      + by apply (reduce_slots_range rw1 0 (size rw1 - 0 - 1) j Hwf1).
      + apply (reduce_slots_init rw1 0 j Hwf1); [simpl; lia | done]. }
  rewrite (visited_eq rw1 now 0) by done. f_equal.
  unfold reduce_diff. change (ignoreCurrent rw1) with (ignoreCurrent rw0).
  simpl (_ && _). destruct (ignoreCurrent rw0).
  - rewrite app_nil_r. rewrite <- Hinit. do 2 f_equal. lia.
  - rewrite reduce_slots_last by (done || (simpl; lia)).
    rewrite fmap_app, Hinit. simpl. do 2 f_equal.
    unfold rw1. simpl. rewrite bucket_at_set_eq by lia.
    by rewrite (bucket_at_replicate (Z.to_nat n)).
Qed.

Lemma single_add_visible_witness :
  exists rw1,
    Add fresh3 0 0 5 = Ok rw1 /\
    visited rw1 50 =
    Ok (replicate (Z.to_nat (3 - 1)) new_Bucket ++
        [ {| Sum := 0 + 5; Count := 1 |} ]).
Proof.
  apply (single_add_visible 3 3 100 0 50 [] 5 fresh3);
    [constructor | reflexivity | lia | lia | lia | done].
Defined.

(** ** Reading before and after a slide *)

Lemma fmap_ext_in {A B} (f g : A -> B) (l : list A) :
  (forall x, x ∈ l -> f x = g x) -> f <$> l = g <$> l.
Proof.
  induction l as [|x l IH]; intros H; [done |].
  simpl. rewrite H by left. f_equal. apply IH. intros y Hy. apply H. by right.
Qed.

(** The slots read after a slide by [s] are those read before it, followed
    by the slots the slide has passed over. *)
Lemma reduce_slots_slid rw s t2 d :
  wf rw ->
  reduce_slots (slid rw s t2) 0 d
  = (fun i => (offset rw + (s + 1 + i)) mod size rw) <$> seqZ 0 d.
Proof.
  intros Hwf. pose proof Hwf as [Hsz _ _ _]. unfold reduce_slots.
  apply fmap_ext_in. intros i _. simpl.
  rewrite Z.add_mod_idemp_l by lia.
  replace ((offset rw + s) mod size rw + 0 + 1 + i)
    with ((offset rw + s) mod size rw + (1 + i)) by lia.
  rewrite Z.add_mod_idemp_l by lia. f_equal. lia.
Qed.

Lemma reduce_slots_eq rw s d :
  wf rw ->
  reduce_slots rw s d
  = (fun i => (offset rw + (s + 1 + i)) mod size rw) <$> seqZ 0 d.
Proof.
  intros Hwf. unfold reduce_slots. apply fmap_ext_in. intros i _.
  by apply reduce_slot_shift.
Qed.

Lemma kept_slot_not_reset rw s i :
  wf rw -> 0 <= s -> 0 <= i < size rw - s ->
  (offset rw + (s + 1 + i)) mod size rw ∉ reset_slots rw s.
Proof.
  intros [Hsz _ _ _] Hs Hi (k & E & Hk%elem_of_seqZ)%list_elem_of_fmap.
  replace (offset rw + (s + 1 + i)) with (offset rw + 1 + (s + i)) in E
    by lia.
  replace (offset rw + k + 1) with (offset rw + 1 + k) in E by lia.
  apply ring_inj in E; lia.
Qed.

Lemma passed_slot_reset rw s i :
  wf rw -> size rw - s <= i < size rw ->
  (offset rw + (s + 1 + i)) mod size rw ∈ reset_slots rw s.
Proof.
  intros [Hsz _ _ _] Hi. apply list_elem_of_fmap.
  exists (i - (size rw - s)). split; [| apply elem_of_seqZ; lia].
  replace (offset rw + (s + 1 + i))
    with (offset rw + (i - (size rw - s)) + 1 + 1 * size rw) by lia.
  by rewrite Z_mod_plus_full.
Qed.

(** X11: reading is consistent with sliding.  When the span read at a
    clock reading is [s > 0], [Reduce] on the window as it stands reports
    the same buckets, in the same order, as [Reduce] after [updateOffset]
    has slid the window at that reading; after the slide the report only
    continues with the zero buckets of the slots passed over ([s] of them,
    or [s - 1] with ignoreCurrent, which leaves out the new active slot). *)
Theorem Reduce_agrees_with_slide rw now s :
  wf rw -> 0 <= lastTime rw <= now -> now <= I64.max_int ->
  span rw now = Ok s -> 0 < s ->
  exists rw' l,
    updateOffset rw now now = Ok rw' /\
    visited rw now = Ok l /\
    Z.of_nat (length l) = size rw - s /\
    visited rw' now =
    Ok (l ++ replicate
               (Z.to_nat (if ignoreCurrent rw then s - 1 else s))
               new_Bucket).
Proof.
  intros Hwf Hl Hn Hspan Hs.
  pose proof (span_bounds _ _ _ Hwf Hspan) as Hb.
  destruct (span_inv _ _ _ Hspan) as [Hi _].
  pose proof Hwf as [Hsz _ _ _].
  pose proof (slid_wf rw s now Hwf) as Hwf'.
  exists (slid rw s now). eexists.
  split; [by apply updateOffset_slide |].
  assert (Hd : reduce_diff rw s = size rw - s).
  { unfold reduce_diff. by destruct (Z.eqb_spec s 0); [lia |]. }
  split; [rewrite (visited_eq rw now s), Hd by done; reflexivity |].
  split; [rewrite length_fmap, reduce_slots_length; lia |].
  rewrite (visited_eq (slid rw s now) now 0)
    by (done || by apply span_after_slide).
  f_equal. set (m := if ignoreCurrent rw then s - 1 else s).
  assert (Hd' : reduce_diff (slid rw s now) 0 = size rw - s + m).
  { unfold reduce_diff, m. simpl. destruct (ignoreCurrent rw); lia. }
  assert (Hm : 0 <= m <= s) by (unfold m; destruct (ignoreCurrent rw); lia).
  rewrite Hd', reduce_slots_slid, reduce_slots_eq by done.
  rewrite seqZ_app by lia. rewrite !fmap_app. f_equal.
  - rewrite <- !list_fmap_compose. apply fmap_ext_in.
    intros i Hi'%elem_of_seqZ. unfold compose.
    rewrite slid_bucket_at
      by (done || (apply Z.mod_pos_bound; lia)).
    rewrite decide_False by (apply kept_slot_not_reset; (done || lia)).
    done.
  - rewrite <- list_fmap_compose.
    rewrite (fmap_const_replicate _ new_Bucket).
    + rewrite length_seqZ. done.
    + intros i Hi'%elem_of_seqZ. unfold compose.
      rewrite slid_bucket_at
        by (done || (apply Z.mod_pos_bound; lia)).
      rewrite decide_True by (apply passed_slot_reset; (done || lia)).
      done.
Qed.

Lemma Reduce_agrees_with_slide_witness :
  exists rw' l,
    updateOffset fresh3 150 150 = Ok rw' /\
    visited fresh3 150 = Ok l /\
    Z.of_nat (length l) = size fresh3 - 1 /\
    visited rw' 150 =
    Ok (l ++ replicate
               (Z.to_nat (if ignoreCurrent fresh3 then 1 - 1 else 1))
               new_Bucket).
Proof.
  apply (Reduce_agrees_with_slide fresh3 150 1);
    [exact fresh3_wf | simpl; lia | done | reflexivity | lia].
Defined.

(** ** What Reduce leaves alone *)

Lemma visit_all_frame {A} (fn : visitor A) js w a j :
  0 <= j -> Forall (fun k => 0 <= k) js -> j ∉ js ->
  bucket_at (visit_all fn w a js).1 j = bucket_at w j.
Proof.
  intros Hj Hjs. revert w a. unfold visit_all.
  induction Hjs as [|k js Hk _ IH]; intros w a Hnin; [done |].
  apply not_elem_of_cons in Hnin as [Hne Hnin].
  simpl. destruct (visit fn (w, a) k) as [w' a'] eqn:E.
  rewrite IH by done. unfold visit in E. simpl in E.
  destruct (buckets w !! Z.to_nat k) as [b|]; [| by injection E as <- _].
  destruct (fn a b) as [a'' b']. injection E as <- _.
  apply bucket_at_set_ne; lia.
Qed.

Lemma visit_all_shape {A} (fn : visitor A) js w a :
  w_size (visit_all fn w a js).1 = w_size w /\
  length (buckets (visit_all fn w a js).1) = length (buckets w).
Proof.
  revert w a. unfold visit_all.
  induction js as [|k js IH]; intros w a; [done |].
  simpl. destruct (visit_shape fn (w, a) k) as [E1 E2].
  destruct (visit fn (w, a) k) as [w' a'] eqn:E. simpl in *.
  destruct (IH w' a') as [-> ->]. done.
Qed.

(** X12: whatever the visitor does with the buckets it is given, [Reduce]
    changes nothing else: size, interval, offset, ignoreCurrent and
    lastTime are untouched, the ring keeps its length, every bucket outside
    the slots visited keeps its contents, and the window stays
    well-formed. *)
Theorem Reduce_touches_only_visited {A} (fn : visitor A) rw now s a rw' a' :
  wf rw -> span rw now = Ok s ->
  Reduce rw now fn a = Ok (rw', a') ->
  wf rw' /\
  size rw' = size rw /\ interval rw' = interval rw /\
  offset rw' = offset rw /\ ignoreCurrent rw' = ignoreCurrent rw /\
  lastTime rw' = lastTime rw /\
  length (buckets (win rw')) = length (buckets (win rw)) /\
  (forall j, 0 <= j -> j ∉ reduce_slots rw s (reduce_diff rw s) ->
     bucket_at (win rw') j = bucket_at (win rw) j).
Proof.
  intros Hwf Hspan HR. rewrite (Reduce_eq fn rw now s) in HR by done.
  pose proof (visit_all_shape fn (reduce_slots rw s (reduce_diff rw s))
                (win rw) a) as [Hw Hlen].
  assert (Hfr : forall j, 0 <= j ->
            j ∉ reduce_slots rw s (reduce_diff rw s) ->
            bucket_at (visit_all fn (win rw) a
                         (reduce_slots rw s (reduce_diff rw s))).1 j
            = bucket_at (win rw) j).
  { intros j Hj Hnin. apply visit_all_frame; [done | | done].
    apply Forall_forall. intros k Hk.
    by apply (reduce_slots_range rw s (reduce_diff rw s) k Hwf). }
  destruct (visit_all _ _ _ _) as [w a'']. injection HR as <- <-.
  simpl in *. destruct Hwf as [Hsz Hws Hl Hoff].
  repeat split; simpl; try done; try lia; congruence.
Qed.

Lemma Reduce_touches_only_visited_witness :
  exists rw' a',
    Reduce fresh3 150 (fun (a : Z) (b : Bucket) => (a + 1, Bucket_reset b)) 0
    = Ok (rw', a') /\
    offset rw' = offset fresh3 /\ lastTime rw' = lastTime fresh3 /\
    bucket_at (win rw') 1 = bucket_at (win fresh3) 1.
Proof.
  eexists. eexists. split; [reflexivity |].
  destruct (Reduce_touches_only_visited
              (fun (a : Z) (b : Bucket) => (a + 1, Bucket_reset b))
              fresh3 150 1 0 _ _ fresh3_wf eq_refl eq_refl)
    as (_ & _ & _ & Ho & _ & Hl & _ & Hb).
  split; [exact Ho |]. split; [exact Hl |].
  apply Hb; [lia |]. intros H. apply list_elem_of_In in H.
  vm_compute in H. destruct H as [H|[H|[]]]; discriminate.
Defined.

(** ** Counting the additions *)

Lemma total_count_insert l i b b' :
  l !! i = Some b ->
  total_count (<[i := b']> l) = total_count l - Count b + Count b'.
Proof.
  revert i. induction l as [|x l IH]; intros [|i] H; try done; simpl in *.
  - injection H as ->. lia.
  - rewrite (IH i H). lia.
Qed.

Lemma total_count_nonneg l :
  Forall (fun b => 0 <= Count b) l -> 0 <= total_count l.
Proof. induction 1; simpl; lia. Qed.

Lemma total_count_replicate n : total_count (replicate n new_Bucket) = 0.
Proof. induction n as [|n IH]; simpl; [done | by rewrite IH]. Qed.

Lemma reset_all_total w js :
  Forall (fun b => 0 <= Count b) (buckets w) ->
  Forall (fun b => 0 <= Count b) (buckets (reset_all w js)) /\
  total_count (buckets (reset_all w js)) <= total_count (buckets w).
Proof.
  revert w. induction js as [|j js IH]; intros w Hw;
    [split; [done | reflexivity] |].
  cbn [reset_all foldl]. fold (reset_all (set_bucket w j new_Bucket) js).
  destruct (IH (set_bucket w j new_Bucket)) as [H1 H2].
  { simpl. by apply Forall_insert. }
  split; [done |]. etransitivity; [exact H2 |]. simpl.
  destruct (buckets w !! Z.to_nat j) as [b|] eqn:E.
  - rewrite (total_count_insert _ _ b) by done.
    pose proof (proj1 (Forall_lookup _ _) Hw _ _ E). simpl in *. lia.
  - rewrite list_insert_ge by (by apply lookup_ge_None). lia.
Qed.

Lemma reach_counts t0 t k rw :
  reach t0 t k rw -> k <= I64.max_int ->
  Forall (fun b => 0 <= Count b) (buckets (win rw)) /\
  total_count (buckets (win rw)) <= k.
Proof.
  induction 1 as [heap n iv opts rw Ht0 Ho Hn | t k rw t1 t2 v rw' Hr IH Ht Hm HA
                 | A t k rw t1 fn a rw' a' Hr IH Ht Hro HR]; intros Hk.
  - destruct (NewRollingWindow_wf _ _ _ _ _ Ho Hn)
      as (_ & _ & _ & _ & _ & _ & ->).
    rewrite total_count_replicate. split; [| done].
    by apply Forall_replicate.
  - pose proof (reach_wf _ _ _ _ Hr) as Hwf.
    pose proof (reach_clock _ _ _ _ Hr) as (_ & _ & Hk0).
    destruct IH as [IH1 IH2]; [lia |].
    destruct (Add_inv _ _ _ _ _ Hwf HA) as (rw1 & b & Hu & Hb & ->).
    assert (H1 : Forall (fun b => 0 <= Count b) (buckets (win rw1)) /\
                 total_count (buckets (win rw1)) <= k).
    { destruct (updateOffset_inv _ _ _ _ Hwf Hu)
        as [[_ ->]|(s & _ & _ & ->)]; [done |].
      simpl. destruct (reset_all_total (win rw) (reset_slots rw s) IH1).
      split; [done | lia]. }
    destruct H1 as [H1 H2].
    pose proof (proj1 (Forall_lookup _ _) H1 _ _ Hb) as Hc. simpl in Hc.
    pose proof (total_count_nonneg _ H1) as Hnn.
    assert (Hle : Count b <= total_count (buckets (win rw1))).
    { pose proof (total_count_nonneg (<[Z.to_nat (offset rw1) := new_Bucket]>
                                        (buckets (win rw1)))) as Hz.
      rewrite (total_count_insert _ _ b) in Hz by done. simpl in Hz.
      assert (Hz' : 0 <= total_count (buckets (win rw1)) - Count b + 0)
        by (apply Hz, Forall_insert; [done | simpl; lia]).
      lia. }
    assert (Ec : Count (Bucket_add v b) = Count b + 1).
    { simpl. apply I64Facts.add_id.
      unfold I64.in_range, I64.min_int, I64.max_int in *. lia. }
    simpl. split.
    + apply Forall_insert; [done | lia].
    + rewrite (total_count_insert _ _ b) by done. lia.
  - pose proof (reach_wf _ _ _ _ Hr) as Hwf.
    rewrite (Reduce_read_only_inv _ _ _ _ _ _ Hwf Hro HR). by apply IH.
Qed.

(** X13: no addition is counted twice.  In every state reached from
    construction by [k] calls of [Add] ([k] below [2^63]) and any calls of
    [Reduce] with read-only visitors, the counts of all buckets add up to
    at most [k], and to at least 0. *)
Theorem total_count_bounded t0 t k rw :
  reach t0 t k rw -> k <= I64.max_int ->
  0 <= total_count (buckets (win rw)) <= k.
Proof.
  intros Hr Hk. destruct (reach_counts _ _ _ _ Hr Hk) as [H1 H2].
  split; [by apply total_count_nonneg | done].
Qed.

Lemma total_count_bounded_witness :
  0 <= total_count (buckets (win busy3)) <= 4.
Proof.
  apply (total_count_bounded 0 350 4 busy3); [exact busy3_reach | done].
Defined.

(** After the four additions of [busy3] three are still counted: the first
    has expired with the bucket the ring came round to. *)
Example busy3_total : total_count (buckets (win busy3)) = 3.
Proof. reflexivity. Qed.

(** X14: no addition is lost.  An [Add] that reads span 0 raises the sum
    of all counts by exactly one, provided the count of the active bucket
    has not reached the largest int64. *)
Theorem Add_counts_once rw t1 t2 v :
  wf rw -> span rw t1 = Ok 0 ->
  Count (bucket_at (win rw) (offset rw)) < I64.max_int ->
  I64.min_int <= Count (bucket_at (win rw) (offset rw)) ->
  exists rw',
    Add rw t1 t2 v = Ok rw' /\
    total_count (buckets (win rw')) = total_count (buckets (win rw)) + 1.
Proof.
  intros Hwf Hspan Hmax Hmin. eexists. split; [by apply Add_rest_eq |].
  destruct Hwf as [Hsz Hws Hlen Hoff]. simpl.
  rewrite (total_count_insert _ _ (bucket_at (win rw) (offset rw)))
    by (apply bucket_at_lookup; lia).
  simpl. rewrite I64Facts.add_id
    by (unfold I64.in_range, I64.min_int, I64.max_int in *; lia).
  lia.
Qed.

Lemma Add_counts_once_witness :
  exists rw',
    Add fresh3 50 50 2 = Ok rw' /\
    total_count (buckets (win rw')) = total_count (buckets (win fresh3)) + 1.
Proof.
  apply (Add_counts_once fresh3 50 50 2);
    [exact fresh3_wf | reflexivity | done | done].
Defined.

(** ** The ring on its own *)

Lemma index_Ok {A} (l : list A) i x :
  0 <= i -> l !! Z.to_nat i = Some x -> index l i = Ok x.
Proof.
  intros Hi Hx. unfold index. destruct (Z.ltb_spec i 0); [lia |].
  by rewrite Hx.
Qed.

Lemma index_negative {A} (l : list A) i :
  i < 0 -> index l i = Panic "index out of range".
Proof. intros Hi. unfold index. by destruct (Z.ltb_spec i 0); [| lia]. Qed.

(** X15: [window.add] and [window.resetBucket] take any offset that is not
    negative and wrap it around the ring: the bucket written is the one of
    slot [offset mod size].  On a ring of size 0 they panic with a division
    by zero, and on a ring that is not empty a negative offset that is not
    a multiple of the size panics with an index out of range. *)
Theorem window_slot_bounds w off v :
  Z.of_nat (length (buckets w)) = w_size w ->
  (w_size w = 0 ->
     window_add w off v = Panic "integer divide by zero" /\
     window_resetBucket w off = Panic "integer divide by zero") /\
  (0 <= off -> 0 < w_size w ->
     window_add w off v =
       Ok (set_bucket w (off mod w_size w)
             (Bucket_add v (bucket_at w (off mod w_size w)))) /\
     window_resetBucket w off =
       Ok (set_bucket w (off mod w_size w) new_Bucket)) /\
  (off < 0 -> 0 < w_size w -> Z.rem off (w_size w) <> 0 ->
     window_add w off v = Panic "index out of range" /\
     window_resetBucket w off = Panic "index out of range").
Proof.
  intros Hlen. split; [| split].
  - intros E. unfold window_add, window_resetBucket, I64.rem.
    by rewrite E.
  - intros Hoff Hsz. pose proof (Z.mod_pos_bound off (w_size w) Hsz).
    unfold window_add, window_resetBucket.
    rewrite I64Facts.rem_mod by done. rewrite !bind_Ok.
    rewrite (index_Ok _ _ (bucket_at w (off mod w_size w)))
      by (lia || (apply bucket_at_lookup; lia)).
    done.
  - intros Hoff Hsz Hrem.
    assert (Z.rem off (w_size w) < 0).
    { pose proof (Z.rem_nonpos off (w_size w)). lia. }
    unfold window_add, window_resetBucket.
    rewrite I64Facts.rem_Ok by lia. rewrite !bind_Ok.
    by rewrite index_negative by done.
Qed.

Lemma window_slot_bounds_witness :
  window_add (win fresh3) 7 2 =
    Ok (set_bucket (win fresh3) 1 (Bucket_add 2 new_Bucket)) /\
  window_add (win fresh3) (-1) 2 = Panic "index out of range".
Proof.
  destruct (window_slot_bounds (win fresh3) 7 2 eq_refl) as (_ & H & _).
  destruct (window_slot_bounds (win fresh3) (-1) 2 eq_refl) as (_ & _ & H').
  split; [apply H; done | apply H'; done].
Defined.

(** ** What the operations keep *)

(** X16: [updateOffset] and [Add] never change the size, the interval or
    the ignoreCurrent option of a window, nor the number of its buckets,
    and they keep the offset inside the ring. *)
Theorem writes_keep_configuration rw t1 t2 v :
  wf rw ->
  (forall rw', updateOffset rw t1 t2 = Ok rw' ->
     size rw' = size rw /\ interval rw' = interval rw /\
     ignoreCurrent rw' = ignoreCurrent rw /\
     length (buckets (win rw')) = length (buckets (win rw)) /\
     0 <= offset rw' < size rw') /\
  (forall rw', Add rw t1 t2 v = Ok rw' ->
     size rw' = size rw /\ interval rw' = interval rw /\
     ignoreCurrent rw' = ignoreCurrent rw /\
     length (buckets (win rw')) = length (buckets (win rw)) /\
     0 <= offset rw' < size rw').
Proof.
  intros Hwf. pose proof Hwf as [_ _ Hlen _].
  assert (HU : forall rw', updateOffset rw t1 t2 = Ok rw' ->
            wf rw' /\ size rw' = size rw /\ interval rw' = interval rw /\
            ignoreCurrent rw' = ignoreCurrent rw /\
            length (buckets (win rw')) = length (buckets (win rw))).
  { intros rw' Hu.
    destruct (updateOffset_wf _ _ _ _ Hwf Hu) as (Hwf' & Hs & Hi & Hic).
    pose proof Hwf' as [_ _ Hlen' _].
    split; [done |]. split; [done |]. split; [done |]. split; [done |].
    lia. }
  split.
  - intros rw' Hu. destruct (HU rw' Hu) as ([] & ? & ? & ? & ?). done.
  - intros rw' HA.
    destruct (Add_inv _ _ _ _ _ Hwf HA) as (rw1 & b & Hu & _ & ->).
    destruct (HU rw1 Hu) as ([] & ? & ? & ? & ?). simpl.
    rewrite length_insert. done.
Qed.

Lemma writes_keep_configuration_witness :
  exists rw',
    Add fresh3 250 250 2 = Ok rw' /\
    size rw' = size fresh3 /\ interval rw' = interval fresh3 /\
    ignoreCurrent rw' = ignoreCurrent fresh3 /\
    length (buckets (win rw')) = length (buckets (win fresh3)) /\
    0 <= offset rw' < size rw'.
Proof.
  eexists. split; [reflexivity |].
  by apply (writes_keep_configuration fresh3 250 250 2 fresh3_wf).
Defined.



(** ** Which buckets are still reported *)

Lemma reverse_seqZ_nat (n : nat) :
  reverse (seqZ 0 (Z.of_nat n))
  = (fun i => Z.of_nat n - 1 - i) <$> seqZ 0 (Z.of_nat n).
Proof.
  induction n as [|n IH]; [done |].
  rewrite seqZ_S at 1. rewrite reverse_snoc, IH.
  rewrite (seqZ_cons 0 (Z.of_nat (S n))) by lia.
  replace (Z.pred (Z.of_nat (S n))) with (Z.of_nat n) by lia.
  change (Z.succ 0) with (1 + 0). rewrite <- fmap_add_seqZ.
  rewrite fmap_cons, <- list_fmap_compose. f_equal; [lia |].
  apply fmap_ext_in. intros i _. unfold compose. lia.
Qed.

(** The slots read, named by their age: the bucket of age [k] is the one
    [k] slots behind the active slot. *)
Lemma reduce_slots_by_age rw s :
  wf rw -> 0 <= s <= size rw ->
  reduce_slots rw s (size rw - s)
  = (fun k => (offset rw - k) mod size rw)
      <$> reverse (seqZ 0 (size rw - s)).
Proof.
  intros Hwf Hs. pose proof Hwf as [Hsz _ _ _].
  rewrite reduce_slots_eq by done.
  rewrite <- (Z2Nat.id (size rw - s)) at 2 by lia.
  rewrite reverse_seqZ_nat, Z2Nat.id by lia.
  rewrite <- list_fmap_compose. apply fmap_ext_in. intros i _.
  unfold compose.
  replace (offset rw + (s + 1 + i))
    with (offset rw - (size rw - s - 1 - i) + 1 * size rw) by lia.
  by rewrite Z_mod_plus_full.
Qed.

(** X18: buckets are reported by age.  When the active bucket is not being
    ignored and the span read is [s], [Reduce] calls the visitor on exactly
    the buckets of age [size - s - 1] down to 0, oldest first, where the
    bucket of age [k] is the one [k] slots behind the active slot, at
    [(offset - k) mod size]; a bucket of age [size - s] or more is not
    reported. *)
Theorem reported_by_age {A} (fn : visitor A) rw now s a :
  wf rw -> span rw now = Ok s ->
  ignoreCurrent rw = false \/ 0 < s ->
  let slots :=
    (fun k => (offset rw - k) mod size rw)
      <$> reverse (seqZ 0 (size rw - s)) in
  Reduce rw now fn a =
    Ok (let '(w, a') := visit_all fn (win rw) a slots in
        (set_win rw w, a')) /\
  visited rw now = Ok (bucket_at (win rw) <$> slots).
Proof.
  intros Hwf Hspan Hic slots.
  pose proof (span_bounds _ _ _ Hwf Hspan) as Hb.
  assert (Hd : reduce_diff rw s = size rw - s).
  { unfold reduce_diff. destruct Hic as [-> | H0]; [by rewrite andb_false_r |].
    by destruct (Z.eqb_spec s 0); [lia |]. }
  unfold slots. rewrite <- reduce_slots_by_age, <- Hd by done. split.
  - by apply Reduce_eq.
  - by apply visited_eq.
Qed.

Lemma reported_by_age_witness :
  Reduce busy3 450 collect [] = Ok (busy3, [mkBucket 3 1; mkBucket 4 1]) /\
  visited busy3 450 = Ok [mkBucket 3 1; mkBucket 4 1].
Proof.
  exact (reported_by_age collect busy3 450 1 []
           (reach_wf _ _ _ _ busy3_reach) eq_refl (or_intror eq_refl)).
Defined.

(** X19: the lifetime of the active bucket.  With a positive interval and
    a clock that has not run backwards, the active bucket is the last one
    [Reduce] reports for as long as fewer than [size] intervals have passed
    since lastTime (and, with ignoreCurrent, at least one has); once [size]
    intervals have passed [Reduce] reports nothing at all. *)
Theorem active_bucket_lifetime rw now :
  wf rw -> 0 < interval rw ->
  0 <= lastTime rw <= now -> now <= I64.max_int ->
  (now - lastTime rw < size rw * interval rw ->
   ignoreCurrent rw = false \/ interval rw <= now - lastTime rw ->
   exists l, visited rw now = Ok (l ++ [bucket_at (win rw) (offset rw)])) /\
  (size rw * interval rw <= now - lastTime rw -> visited rw now = Ok []).
Proof.
  intros Hwf Hi Hl Hm. pose proof Hwf as [Hsz _ _ _].
  pose proof (span_floor_Ok rw now Hl Hm Hi) as Hspan.
  pose proof (Z.div_pos (now - lastTime rw) (interval rw)).
  split.
  - intros Hlt Hic.
    assert (Hq : (now - lastTime rw) / interval rw < size rw)
      by (apply Z.div_lt_upper_bound; lia).
    destruct (Z.ltb_spec ((now - lastTime rw) / interval rw) (size rw));
      [| lia].
    set (s := (now - lastTime rw) / interval rw) in *.
    assert (Hd : reduce_diff rw s = size rw - s).
    { unfold reduce_diff. destruct Hic as [-> | Hone];
        [by rewrite andb_false_r |].
      assert (1 <= s) by (apply Z.div_le_lower_bound; lia).
      by destruct (Z.eqb_spec s 0); [lia |]. }
    eexists. rewrite (visited_eq rw now s), Hd by done.
    rewrite reduce_slots_last by (done || lia). by rewrite fmap_app.
  - intros Hge.
    assert (Hq : size rw <= (now - lastTime rw) / interval rw)
      by (apply Z.div_le_lower_bound; lia).
    destruct (Z.ltb_spec ((now - lastTime rw) / interval rw) (size rw));
      [lia |].
    apply (visited_nothing rw now (size rw)); [done | done |].
    unfold reduce_diff. destruct (Z.eqb_spec (size rw) 0); [lia |].
    simpl. lia.
Qed.

Lemma active_bucket_lifetime_witness :
  (exists l, visited fresh3 250 = Ok (l ++ [bucket_at (win fresh3) 0])) /\
  visited fresh3 300 = Ok [].
Proof.
  split.
  - apply (active_bucket_lifetime fresh3 250);
      [exact fresh3_wf | simpl; lia | simpl; lia | done | simpl; lia
      | by left].
  - apply (active_bucket_lifetime fresh3 300);
      [exact fresh3_wf | simpl; lia | simpl; lia | done | simpl; lia].
Defined.

(** ** A clock that runs backwards *)

(** X20: when the clock reads less than lastTime (with a positive interval
    and both readings in the range of the clock), a step back of less than
    one interval gives span 0, as if no time had passed, and a step back of
    one interval or more gives span [size]: the whole window counts as
    stale. *)
Theorem span_backward_clock rw now :
  0 < size rw -> 0 < interval rw ->
  0 <= now -> now < lastTime rw -> lastTime rw <= I64.max_int ->
  (lastTime rw - now < interval rw -> span rw now = Ok 0) /\
  (interval rw <= lastTime rw - now -> span rw now = Ok (size rw)).
Proof.
  intros Hsz Hi Hn Hl Hm. unfold I64.max_int in Hm.
  rewrite span_Ok by lia. unfold span_value. cbv zeta.
  rewrite I64Facts.sub_id
    by (unfold I64.in_range, I64.min_int, I64.max_int; lia).
  pose proof (quot_abs_le (now - lastTime rw) (interval rw)) as Hq.
  rewrite I64Facts.wrap64_id
    by (unfold I64.in_range, I64.min_int, I64.max_int; lia).
  split.
  - intros Hlt. assert (Hne : interval rw <> 0) by lia.
    rewrite (proj2 (Z.quot_small_iff _ _ Hne)) by lia.
    simpl. by destruct (Z.ltb_spec 0 (size rw)); [| lia].
  - intros Hge.
    assert (Z.quot (now - lastTime rw) (interval rw) < 0).
    { replace (now - lastTime rw) with (- (lastTime rw - now)) by lia.
      rewrite Z.quot_opp_l by lia.
      assert (1 <= Z.quot (lastTime rw - now) (interval rw)); [| lia].
      rewrite Z.quot_div_nonneg by lia.
      apply Z.div_le_lower_bound; lia. }
    by destruct (Z.leb_spec 0 (Z.quot (now - lastTime rw) (interval rw)));
      [lia |].
Qed.

Lemma span_backward_clock_witness :
  span (slid fresh3 2 250) 150 = Ok 0 /\
  span (slid fresh3 2 250) 50 = Ok (size (slid fresh3 2 250)).
Proof.
  split.
  - apply (span_backward_clock (slid fresh3 2 250) 150); simpl; (lia || done).
  - apply (span_backward_clock (slid fresh3 2 250) 50); simpl; (lia || done).
Defined.
